(** * Circular sleeves: the face matcher and the sleeve orientation

    A shallow embedding of [script.py], the pyRevit macro that places
    sleeve cut-outs where mechanical equipment crosses beams and walls,
    together with the properties of its geometric core.

    Conventions of the embedding.
    - Lengths are the host's doubles.  They are modelled by exact rationals
      ([Q]); Python's [float('inf')], the initial running minimum of the
      searches, is the extra point [PosInf] of [ereal].  Rounding and NaN
      are outside the model.
    - The host objects (faces, solids, bounding boxes, vectors) are records
      carrying what the script reads from them; a face carries its methods
      [Project], [Evaluate] and [ComputeNormal] as functions.
    - The script's functions run in the monad [Py]: a computation may raise
      a Python exception, and every call into the host's geometry kernel is
      appended to a log, so that "this pass was never run" is a statement
      about the log. *)

From Stdlib Require Import QArith Qabs List Bool Lia Lqa.
Import ListNotations.

Local Open Scope Q_scope.

(** ** Numbers *)

(** Python's [x < y] on two lengths; [Qle_bool] is the library's [x <= y]. *)
Definition Qlt_bool (x y : Q) : bool :=
  (Qnum x * QDen y <? Qnum y * QDen x)%Z.

(** Python's [x > y] and [x >= y]. *)
Definition Qgt_bool (x y : Q) : bool := Qlt_bool y x.
Definition Qge_bool (x y : Q) : bool := Qle_bool y x.

(** A length or [float('inf')]. *)
Inductive ereal : Type :=
| Finite (q : Q)
| PosInf.

(** [d < m] and [m > t] for a running minimum [m]. *)
Definition lt_ereal (d : Q) (m : ereal) : bool :=
  match m with
  | Finite q => Qlt_bool d q
  | PosInf => true
  end.

Definition gt_ereal (m : ereal) (t : Q) : bool :=
  match m with
  | Finite q => Qgt_bool q t
  | PosInf => true
  end.

(** Python's two-argument [max]: the first argument unless the second is
    greater. *)
Definition py_max (a b : Q) : Q := if Qgt_bool b a then b else a.

(** ** Host geometry *)

(** [Autodesk.Revit.DB.XYZ]: a point or a vector. *)
Module XYZ.

Record t : Type := mk { X : Q; Y : Q; Z : Q }.

Definition BasisX : t := mk 1 0 0.
Definition BasisY : t := mk 0 1 0.
Definition BasisZ : t := mk 0 0 1.

(** [a - b] *)
Definition Subtract (a b : t) : t :=
  mk (X a - X b) (Y a - Y b) (Z a - Z b).

Definition DotProduct (a b : t) : Q :=
  X a * X b + Y a * Y b + Z a * Z b.

Definition CrossProduct (a b : t) : t :=
  mk (Y a * Z b - Z a * Y b)
     (Z a * X b - X a * Z b)
     (X a * Y b - Y a * X b).

(** The host's comparison tolerance for vectors, [1.0e-09]. *)
Definition tolerance : Q := 1 # 1000000000.

(** The host documents [IsZeroLength] as: every component is zero within
    the tolerance. *)
Definition IsZeroLength (a : t) : bool :=
  Qle_bool (Qabs (X a)) tolerance
  && Qle_bool (Qabs (Y a)) tolerance
  && Qle_bool (Qabs (Z a)) tolerance.

End XYZ.

(** [Autodesk.Revit.DB.UV]: a parameter pair on a face. *)
Record UV : Type := mkUV { U : Q; V : Q }.

(** [Autodesk.Revit.DB.BoundingBoxXYZ] *)
Record BoundingBoxXYZ : Type := mkBoundingBox { Min : XYZ.t; Max : XYZ.t }.

(** [script.py], lines 27-30. *)
Definition do_bounding_boxes_intersect (bbox1 bbox2 : BoundingBoxXYZ) : bool :=
  Qle_bool (XYZ.X (Min bbox1)) (XYZ.X (Max bbox2))
  && Qge_bool (XYZ.X (Max bbox1)) (XYZ.X (Min bbox2))
  && Qle_bool (XYZ.Y (Min bbox1)) (XYZ.Y (Max bbox2))
  && Qge_bool (XYZ.Y (Max bbox1)) (XYZ.Y (Min bbox2))
  && Qle_bool (XYZ.Z (Min bbox1)) (XYZ.Z (Max bbox2))
  && Qge_bool (XYZ.Z (Max bbox1)) (XYZ.Z (Min bbox2)).

(** A box is well formed when its [Min] is componentwise below its [Max]. *)
Definition well_formed_box (b : BoundingBoxXYZ) : Prop :=
  XYZ.X (Min b) <= XYZ.X (Max b)
  /\ XYZ.Y (Min b) <= XYZ.Y (Max b)
  /\ XYZ.Z (Min b) <= XYZ.Z (Max b).

(** [Autodesk.Revit.DB.IntersectionResult], as far as the script reads it. *)
Record IntersectionResult : Type := mkIntersectionResult { Distance : Q }.

(** [Autodesk.Revit.DB.Face].  [IsPlanarFace] is the outcome of
    [isinstance(face, DB.PlanarFace)]; [Project] answers [None] where the
    host returns no projection; [Reference] is [None] for a face without a
    stable reference. *)
Record Face : Type := mkFace {
  Id : nat;
  IsPlanarFace : bool;
  Project : XYZ.t -> option IntersectionResult;
  Evaluate : UV -> XYZ.t;
  ComputeNormal : UV -> XYZ.t;
  Reference : option nat
}.

(** [Autodesk.Revit.DB.Solid] *)
Record Solid : Type := mkSolid { Faces : list Face }.

(** What iterating a [GeometryElement] yields; only [ASolid] passes
    [isinstance(geo_obj, DB.Solid)]. *)
Inductive GeometryObject : Type :=
| ASolid (s : Solid)
| AMesh
| ACurve
| APoint
| APolyLine
| AGeometryInstance.

Definition GeometryElement : Type := list GeometryObject.

Definition isinstance_Solid (geo_obj : GeometryObject) : bool :=
  match geo_obj with
  | ASolid _ => true
  | _ => false
  end.

(** ** The monad of the script *)

Inductive PyException : Type :=
| AttributeError
| TypeError.

(** The calls into the host that the script's geometry code makes. *)
Inductive HostCall : Type :=
| CallProject (face : Face) (point : XYZ.t)
| CallEvaluate (face : Face) (uv : UV)
| CallComputeNormal (face : Face) (uv : UV)
| CallNewFamilyInstance (reference : option nat) (location : XYZ.t)
                        (reference_direction : XYZ.t) (symbol : nat).

(** Oldest call first. *)
Definition Log : Type := list HostCall.

Definition Py (A : Type) : Type := Log -> (PyException + A) * Log.

Definition ret {A : Type} (a : A) : Py A := fun log => (inr a, log).

Definition raise {A : Type} (e : PyException) : Py A := fun log => (inl e, log).

Definition bind {A B : Type} (m : Py A) (k : A -> Py B) : Py B :=
  fun log =>
    match m log with
    | (inl e, log') => (inl e, log')
    | (inr a, log') => k a log'
    end.

(** A host call: its answer, and one more entry in the log. *)
Definition host {A : Type} (call : HostCall) (answer : A) : Py A :=
  fun log => (inr answer, log ++ [call]).

Notation "x <- m ;; k" := (bind m (fun x => k))
  (at level 61, m at next level, right associativity).

(** [for x in xs: body], threading the variables the body assigns. *)
Fixpoint for_each {A S : Type} (xs : list A) (body : A -> S -> Py S) (s : S)
  : Py S :=
  match xs with
  | [] => ret s
  | x :: rest => s' <- body x s ;; for_each rest body s'
  end.

(** The host methods, as the script calls them. *)
Definition face_Project (face : Face) (point : XYZ.t)
  : Py (option IntersectionResult) :=
  host (CallProject face point) (Project face point).

Definition face_Evaluate (face : Face) (uv : UV) : Py XYZ.t :=
  host (CallEvaluate face uv) (Evaluate face uv).

Definition face_ComputeNormal (face : Face) (uv : UV) : Py XYZ.t :=
  host (CallComputeNormal face uv) (ComputeNormal face uv).

(** [if proj:] *)
Definition truthy {A : Type} (o : option A) : bool :=
  match o with
  | Some _ => true
  | None => false
  end.

(** [x is None] *)
Definition is_None {A : Type} (o : option A) : bool := negb (truthy o).

(** [proj.Distance]; on [None] Python raises [AttributeError]. *)
Definition get_Distance (proj : option IntersectionResult) : Py Q :=
  match proj with
  | Some r => ret (Distance r)
  | None => raise AttributeError
  end.

(** ** The searches *)

(** The two variables both searches update. *)
Record Search : Type := mkSearch {
  closest_face : option Face;
  min_distance : ereal
}.

Definition start : Search := mkSearch None PosInf.

(** [base_tolerance=0.2], [tolerance=0.2] *)
Definition default_tolerance : Q := 2 # 10.

(** [script.py], line 47: 120 mm in feet. *)
Definition threshold : Q := 3937 # 10000.

(** [script.py], line 46. *)
Definition diameter (equip_bbox : BoundingBoxXYZ) : Q :=
  py_max (XYZ.X (Max equip_bbox) - XYZ.X (Min equip_bbox))
         (XYZ.Y (Max equip_bbox) - XYZ.Y (Min equip_bbox)).

(** [script.py], line 48. *)
Definition scaled_tolerance (base_tolerance : Q) (equip_bbox : BoundingBoxXYZ)
  : Q :=
  if Qgt_bool (diameter equip_bbox) threshold
  then base_tolerance * (diameter equip_bbox / threshold)
  else base_tolerance.

(** [script.py], lines 55-60: the body of the loop over the faces. *)
Definition far_end_face (far_end_point : XYZ.t) (tolerance : Q)
  (face : Face) (st : Search) : Py Search :=
  proj <- face_Project face far_end_point ;;
  if truthy proj then
    distance <- get_Distance proj ;;
    if lt_ereal distance (min_distance st) && Qle_bool distance tolerance
    then ret (mkSearch (Some face) (Finite distance))
    else ret st
  else ret st.

(** [script.py], lines 53-60: the body of the loop over the geometry. *)
Definition far_end_object (far_end_point : XYZ.t) (tolerance : Q)
  (geo_obj : GeometryObject) (st : Search) : Py Search :=
  match geo_obj with
  | ASolid s => for_each (Faces s) (far_end_face far_end_point tolerance) st
  | _ => ret st
  end.

(** [script.py], lines 45-61. *)
Definition find_intersecting_face_based_on_far_end
  (geo_element : GeometryElement) (far_end_point : XYZ.t)
  (equip_bbox : BoundingBoxXYZ) (base_tolerance : Q) : Py (option Face) :=
  let tolerance := scaled_tolerance base_tolerance equip_bbox in
  st <- for_each geo_element (far_end_object far_end_point tolerance) start ;;
  ret (closest_face st).

(** [script.py], lines 69-73.  The script reads [proj.Distance] once for
    the test and once for the assignment. *)
Definition primary_face (point : XYZ.t) (face : Face) (st : Search)
  : Py Search :=
  proj <- face_Project face point ;;
  if truthy proj then
    d <- get_Distance proj ;;
    if lt_ereal d (min_distance st) then
      d' <- get_Distance proj ;;
      ret (mkSearch (Some face) (Finite d'))
    else ret st
  else ret st.

Definition primary_object (point : XYZ.t) (geo_obj : GeometryObject)
  (st : Search) : Py Search :=
  match geo_obj with
  | ASolid s => for_each (Faces s) (primary_face point) st
  | _ => ret st
  end.

(** [script.py], lines 64-73. *)
Definition primary_pass (geo_element : GeometryElement) (point : XYZ.t)
  : Py Search :=
  for_each geo_element (primary_object point) start.

(** [script.py], line 75. *)
Definition sample_grid : list Q := [2 # 10; 4 # 10; 6 # 10; 8 # 10].

Definition sample_uvs : list UV :=
  flat_map (fun u => map (fun v => mkUV u v) sample_grid) sample_grid.

(** [script.py], line 83, on the answers of the two host calls. *)
Definition perpendicular (point sample_pt normal : XYZ.t) : Q :=
  Qabs (XYZ.DotProduct (XYZ.Subtract point sample_pt) normal).

(** [script.py], lines 81-86. *)
Definition fallback_sample (point : XYZ.t) (tolerance : Q) (face : Face)
  (uv : UV) (st : Search) : Py Search :=
  sample_pt <- face_Evaluate face uv ;;
  normal <- face_ComputeNormal face uv ;;
  let dist := perpendicular point sample_pt normal in
  if Qlt_bool dist tolerance && lt_ereal dist (min_distance st)
  then ret (mkSearch (Some face) (Finite dist))
  else ret st.

(** [script.py], lines 79-86. *)
Definition fallback_face (point : XYZ.t) (tolerance : Q) (face : Face)
  (st : Search) : Py Search :=
  if IsPlanarFace face
  then for_each sample_uvs (fallback_sample point tolerance face) st
  else ret st.

Definition fallback_object (point : XYZ.t) (tolerance : Q)
  (geo_obj : GeometryObject) (st : Search) : Py Search :=
  match geo_obj with
  | ASolid s => for_each (Faces s) (fallback_face point tolerance) st
  | _ => ret st
  end.

(** [script.py], lines 76-86. *)
Definition fallback_pass (geo_element : GeometryElement) (point : XYZ.t)
  (tolerance : Q) (st : Search) : Py Search :=
  for_each geo_element (fallback_object point tolerance) st.

(** [script.py], line 74. *)
Definition needs_fallback (st : Search) (tolerance : Q) : bool :=
  is_None (closest_face st) || gt_ereal (min_distance st) tolerance.

(** [script.py], lines 63-87. *)
Definition find_intersecting_face (geo_element : GeometryElement)
  (point : XYZ.t) (tolerance : Q) : Py (option Face) :=
  st <- primary_pass geo_element point ;;
  st' <- (if needs_fallback st tolerance
          then fallback_pass geo_element point tolerance st
          else ret st) ;;
  ret (closest_face st').

(** ** Placement *)

(** What [doc.Create.NewFamilyInstance] is given, and so what the new
    instance holds. *)
Record FamilyInstance : Type := mkFamilyInstance {
  host_reference : option nat;
  location : XYZ.t;
  direction : XYZ.t;
  family_symbol : nat
}.

Definition doc_Create_NewFamilyInstance (reference : option nat)
  (location_point reference_direction : XYZ.t) (symbol : nat)
  : Py FamilyInstance :=
  host (CallNewFamilyInstance reference location_point reference_direction symbol)
       (mkFamilyInstance reference location_point reference_direction symbol).

(** [script.py], lines 199-201: the vector that line 202 normalizes. *)
Definition reference_vector (face_normal : XYZ.t) : XYZ.t :=
  let reference_direction := XYZ.CrossProduct face_normal XYZ.BasisX in
  if XYZ.IsZeroLength reference_direction
  then XYZ.CrossProduct face_normal XYZ.BasisY
  else reference_direction.

Section Placement.

(** [XYZ.Normalize] of the host: the unit vector of a vector.  It takes a
    square root, so it stays a parameter of the placement. *)
Variable Normalize : XYZ.t -> XYZ.t.

(** [script.py], lines 196-204. *)
Definition place_family_instance_at_location (equip_element first_symbol : nat)
  (face : Face) (location_point : XYZ.t) : Py FamilyInstance :=
  let adjusted_location := location_point in
  face_normal <- face_ComputeNormal face (mkUV (1 # 2) (1 # 2)) ;;
  let reference_direction := reference_vector face_normal in
  let reference_direction := Normalize reference_direction in
  new_instance <- doc_Create_NewFamilyInstance (Reference face)
                    adjusted_location reference_direction first_symbol ;;
  ret new_instance.

End Placement.

(** ** What the loops compute *)

(** The loops of both searches visit candidates, a face with a distance,
    and keep the closest acceptable one.  [keep ok] is one visit, [scan ok]
    a whole loop; [ok] is the test on the distance beside the comparison
    with the running minimum. *)
Definition keep (ok : Q -> bool) (st : Search) (c : Face * Q) : Search :=
  if lt_ereal (snd c) (min_distance st) && ok (snd c)
  then mkSearch (Some (fst c)) (Finite (snd c))
  else st.

Definition scan (ok : Q -> bool) (cands : list (Face * Q)) (st : Search)
  : Search :=
  fold_left (keep ok) cands st.

(** The faces the loops reach: those of the solids, in enumeration order. *)
Definition faces_of (geo_obj : GeometryObject) : list Face :=
  match geo_obj with
  | ASolid s => Faces s
  | _ => []
  end.

Definition solid_faces (geo_element : GeometryElement) : list Face :=
  flat_map faces_of geo_element.

(** The candidates of a projection pass: the faces that project, each with
    its projection distance. *)
Definition projection_of (point : XYZ.t) (face : Face) : list (Face * Q) :=
  match Project face point with
  | Some r => [(face, Distance r)]
  | None => []
  end.

Definition projections (geo_element : GeometryElement) (point : XYZ.t)
  : list (Face * Q) :=
  flat_map (projection_of point) (solid_faces geo_element).

Definition project_calls (point : XYZ.t) (faces : list Face) : Log :=
  map (fun face => CallProject face point) faces.

(** The candidates of the sampling pass. *)
Definition sample_distance (point : XYZ.t) (face : Face) (uv : UV) : Q :=
  perpendicular point (Evaluate face uv) (ComputeNormal face uv).

Definition samples_of (point : XYZ.t) (face : Face) : list (Face * Q) :=
  if IsPlanarFace face
  then map (fun uv => (face, sample_distance point face uv)) sample_uvs
  else [].

Definition samples (geo_element : GeometryElement) (point : XYZ.t)
  : list (Face * Q) :=
  flat_map (samples_of point) (solid_faces geo_element).

Definition sample_calls (face : Face) : Log :=
  if IsPlanarFace face
  then flat_map (fun uv => [CallEvaluate face uv; CallComputeNormal face uv])
                sample_uvs
  else [].

(** The tests on the distance: line 58, line 71 (none) and line 84. *)
Definition within (tolerance : Q) (d : Q) : bool := Qle_bool d tolerance.
Definition any_distance (d : Q) : bool := true.
Definition below (tolerance : Q) (d : Q) : bool := Qlt_bool d tolerance.

(** A running minimum [m] is at most [d]. *)
Definition at_most (m : ereal) (d : Q) : Prop :=
  match m with
  | Finite e => e <= d
  | PosInf => False
  end.

(** [cands] splits around [(face, d)] so that [d] is the least distance and
    [face] the first to reach it. *)
Definition first_closest (cands : list (Face * Q)) (face : Face) (d : Q)
  : Prop :=
  exists before after,
    cands = before ++ (face, d) :: after
    /\ (forall c, In c before -> d < snd c)
    /\ (forall c, In c after -> d <= snd c).

(** A call that belongs to the sampling pass. *)
Definition is_sampling_call (call : HostCall) : bool :=
  match call with
  | CallEvaluate _ _ | CallComputeNormal _ _ => true
  | _ => false
  end.

Definition is_project_call (call : HostCall) : bool :=
  match call with
  | CallProject _ _ => true
  | _ => false
  end.

(** ** Scenes *)

Definition unit_box : BoundingBoxXYZ :=
  mkBoundingBox (XYZ.mk 0 0 0) (XYZ.mk 1 1 1).

(** The box of a sleeve 100 mm across: below the threshold. *)
Definition small_box : BoundingBoxXYZ :=
  mkBoundingBox (XYZ.mk 0 0 0) (XYZ.mk (3 # 10) (1 # 4) 2).

(** A horizontal planar face at height [h]: every point projects onto it,
    at the difference of the heights. *)
Definition horizontal_face (id : nat) (h : Q) : Face :=
  mkFace id true
    (fun p => Some (mkIntersectionResult (Qabs (XYZ.Z p - h))))
    (fun uv => XYZ.mk (U uv) (V uv) h)
    (fun _ => XYZ.BasisZ)
    (Some id).

(** A curved face lying in the plane of height 0 at its samples, onto which
    the host projects nothing. *)
Definition curved_face (id : nat) : Face :=
  mkFace id false
    (fun _ => None)
    (fun uv => XYZ.mk (U uv) (V uv) 0)
    (fun _ => XYZ.BasisZ)
    (Some id).

(** A vertical planar face in the plane [x = a]. *)
Definition vertical_face (id : nat) (a : Q) : Face :=
  mkFace id true
    (fun p => Some (mkIntersectionResult (Qabs (XYZ.X p - a))))
    (fun uv => XYZ.mk a (U uv) (V uv))
    (fun _ => XYZ.BasisX)
    (Some id).

(** One solid with one floor, and a probe one foot above it. *)
Definition floor : Face := horizontal_face 1 0.
Definition far_scene : GeometryElement := [ASolid (mkSolid [floor])].
Definition far_point : XYZ.t := XYZ.mk (1 # 2) (1 # 2) 1.

(** One solid with one curved face, and a probe on it. *)
Definition curved_scene : GeometryElement := [ASolid (mkSolid [curved_face 2])].
Definition near_point : XYZ.t := XYZ.mk (1 # 2) (1 # 2) 0.

(** Two floors, 0.1 and 0.15 below the probe [near_point], in one solid
    after a curve. *)
Definition near_floor : Face := horizontal_face 3 (- (1 # 10)).
Definition next_floor : Face := horizontal_face 4 (- (15 # 100)).
Definition two_floors : GeometryElement :=
  [ACurve; ASolid (mkSolid [near_floor; next_floor])].

(** A planar face in the plane of height 0 onto which the probe does not
    project: the foot of the perpendicular falls outside its boundary. *)
Definition clipped_floor : Face :=
  mkFace 6 true
    (fun _ => None)
    (fun uv => XYZ.mk (U uv) (V uv) 0)
    (fun _ => XYZ.BasisZ)
    (Some 6%nat).
Definition clipped_scene : GeometryElement :=
  [ASolid (mkSolid [curved_face 2; clipped_floor])].
Definition low_point : XYZ.t := XYZ.mk 3 3 (1 # 10).

(** A floor 0.4 below the probe [near_point]. *)
Definition deep_floor : Face := horizontal_face 8 (- (4 # 10)).
Definition deep_scene : GeometryElement := [ASolid (mkSolid [deep_floor])].

(** A wall face, whose normal is the X axis, and the host's [Normalize] on
    vectors that are unit vectors already. *)
Definition wall : Face := vertical_face 5 0.
Definition keep_unit (v : XYZ.t) : XYZ.t := v.
Definition centre : UV := mkUV (1 # 2) (1 # 2).

(** ** The equipment and its hosts *)

(** A point lies in a box; a box lies inside another. *)
Definition box_contains (b : BoundingBoxXYZ) (p : XYZ.t) : Prop :=
  (XYZ.X (Min b) <= XYZ.X p /\ XYZ.X p <= XYZ.X (Max b))
  /\ (XYZ.Y (Min b) <= XYZ.Y p /\ XYZ.Y p <= XYZ.Y (Max b))
  /\ (XYZ.Z (Min b) <= XYZ.Z p /\ XYZ.Z p <= XYZ.Z (Max b)).

Definition box_inside (a b : BoundingBoxXYZ) : Prop :=
  (XYZ.X (Min b) <= XYZ.X (Min a) /\ XYZ.X (Max a) <= XYZ.X (Max b))
  /\ (XYZ.Y (Min b) <= XYZ.Y (Min a) /\ XYZ.Y (Max a) <= XYZ.Y (Max b))
  /\ (XYZ.Z (Min b) <= XYZ.Z (Min a) /\ XYZ.Z (Max a) <= XYZ.Z (Max b)).

(** [Autodesk.Revit.DB.Element], as far as the geometric code reads it:
    [get_BoundingBox(None)] and [get_Geometry(options)] answer [None] for an
    element without extents or without geometry. *)
Module Element.

Record t : Type := mk {
  Id : nat;
  get_BoundingBox : option BoundingBoxXYZ;
  get_Geometry : option GeometryElement
}.

End Element.

(** [script.py], lines 32-43. *)
Definition get_opposite_face_of_equipment (equip_element : Element.t)
  : option XYZ.t :=
  let equip_bbox := Element.get_BoundingBox equip_element in
  match equip_bbox with
  | None => None
  | Some equip_bbox =>
      let min_point := Min equip_bbox in
      let max_point := Max equip_bbox in
      let far_end_point :=
        if Qgt_bool (XYZ.Z max_point) (XYZ.Z min_point)
        then max_point else min_point in
      Some far_end_point
  end.

(** A duct riser and a pump without extents. *)
Definition riser : Element.t :=
  Element.mk 11 (Some (mkBoundingBox (XYZ.mk 0 0 0) (XYZ.mk (1 # 2) (1 # 2) 3)))
             None.
Definition ghost : Element.t := Element.mk 12 None None.
Definition shifted_box : BoundingBoxXYZ :=
  mkBoundingBox (XYZ.mk 1 1 1) (XYZ.mk 2 2 2).
(** The two floors of [two_floors], enumerated the other way round. *)
Definition two_floors_reversed : GeometryElement :=
  [ASolid (mkSolid [next_floor]); AMesh; ASolid (mkSolid [near_floor])].
Definition big_box : BoundingBoxXYZ :=
  mkBoundingBox (XYZ.mk 0 0 0) (XYZ.mk 3 3 3).

(** ** The searches on what a caller hands them *)

(** Python checks nothing at a call: the searches receive what the host
    answered, and a missing box or geometry arrives as [None].
    [attribute o name] is [o.name], which raises [AttributeError] on [None];
    [iterate o] is what [for x in o] runs over, and raises [TypeError] on
    [None]. *)
Definition attribute {A B : Type} (o : option A) (name : A -> B) : Py B :=
  match o with
  | Some a => ret (name a)
  | None => raise AttributeError
  end.

Definition iterate {A : Type} (o : option (list A)) : Py (list A) :=
  match o with
  | Some xs => ret xs
  | None => raise TypeError
  end.

(** [script.py], lines 45-61, on a box and a geometry that may be [None].
    Line 46 reads [equip_bbox.Max] and [equip_bbox.Min] twice each; line 52
    iterates [geo_element]. *)
Definition py_find_intersecting_face_based_on_far_end
  (geo_element : option GeometryElement) (far_end_point : XYZ.t)
  (equip_bbox : option BoundingBoxXYZ) (base_tolerance : Q)
  : Py (option Face) :=
  max_x <- attribute equip_bbox (fun b => XYZ.X (Max b)) ;;
  min_x <- attribute equip_bbox (fun b => XYZ.X (Min b)) ;;
  max_y <- attribute equip_bbox (fun b => XYZ.Y (Max b)) ;;
  min_y <- attribute equip_bbox (fun b => XYZ.Y (Min b)) ;;
  let diameter := py_max (max_x - min_x) (max_y - min_y) in
  let tolerance :=
    if Qgt_bool diameter threshold
    then base_tolerance * (diameter / threshold)
    else base_tolerance in
  geo_objects <- iterate geo_element ;;
  st <- for_each geo_objects (far_end_object far_end_point tolerance) start ;;
  ret (closest_face st).

(** [script.py], lines 63-87, on a geometry that may be [None]: lines 66
    and 76 iterate [geo_element]. *)
Definition py_find_intersecting_face (geo_element : option GeometryElement)
  (point : XYZ.t) (tolerance : Q) : Py (option Face) :=
  geo_objects <- iterate geo_element ;;
  st <- for_each geo_objects (primary_object point) start ;;
  st' <- (if needs_fallback st tolerance
          then geo_objects' <- iterate geo_element ;;
               for_each geo_objects' (fallback_object point tolerance) st
          else ret st) ;;
  ret (closest_face st').

(** ** The search as the placement loop calls it *)

(** [script.py], lines 243-246.  The arguments are what the host answers
    and may be [None]: line 46 then raises on [equip_bbox.Max], and line 52
    on iterating [geo_element].  [far_end_point] is [None] exactly when
    [equip_bbox] is. *)
Definition match_beam_face (element host : Element.t) : Py (option Face) :=
  let geo_element := Element.get_Geometry host in
  let equip_bbox := Element.get_BoundingBox element in
  let far_end_point := get_opposite_face_of_equipment element in
  match far_end_point, equip_bbox with
  | Some far_end_point, Some equip_bbox =>
      match geo_element with
      | Some geo_element =>
          find_intersecting_face_based_on_far_end
            geo_element far_end_point equip_bbox default_tolerance
      | None => raise TypeError
      end
  | _, _ => raise AttributeError
  end.

Section CallSite.

Variable Normalize : XYZ.t -> XYZ.t.

(** [script.py], lines 243-248: the answer is the instance created at line
    248, and [None] when the test of line 247 fails. *)
Definition place_on_beam (element host : Element.t) (first_symbol : nat)
  (location_point : XYZ.t) : Py (option FamilyInstance) :=
  face <- match_beam_face element host ;;
  match face with
  | Some face =>
      if truthy (Reference face)
      then new_instance <- place_family_instance_at_location
                             Normalize (Element.Id element) first_symbol
                             face location_point ;;
           ret (Some new_instance)
      else ret None
  | None => ret None
  end.

End CallSite.

(** ** The hosts an equipment crosses *)

From Stdlib Require String.
Import String.StringSyntax.
Delimit Scope string_scope with string.

(** An entry of [intersecting_elements]: [{'id': ..., 'type': ...}]. *)
Record Intersecting : Type := mkIntersecting {
  intersect_id : nat;
  intersect_type : String.string
}.

(** [script.py], lines 155-158 and 159-162: one loop over a collector,
    appending to [intersecting_elements]. *)
Definition collect_intersecting (type : String.string)
  (equip_bbox : option BoundingBoxXYZ) (collector : list Element.t)
  (intersecting_elements : list Intersecting) : list Intersecting :=
  fold_left
    (fun intersecting_elements other =>
       match Element.get_BoundingBox other, equip_bbox with
       | Some other_bbox, Some equip_bbox =>
           if do_bounding_boxes_intersect equip_bbox other_bbox
           then intersecting_elements
                  ++ [mkIntersecting (Element.Id other) type]
           else intersecting_elements
       | _, _ => intersecting_elements
       end)
    collector intersecting_elements.

(** [script.py], lines 154-162: the end of the [try] block of line 133,
    from the empty list of line 130.  The guard and the [try] around it are
    in [recorded_intersecting_elements]. *)
Definition intersecting_elements_of (element : Element.t)
  (wall_collector beam_collector : list Element.t) : list Intersecting :=
  let equip_bbox := Element.get_BoundingBox element in
  let intersecting_elements :=
    collect_intersecting "Wall"%string equip_bbox wall_collector [] in
  collect_intersecting "Beam"%string equip_bbox beam_collector
                       intersecting_elements.

(** [try: body] with [except Exception: pass], around a body that yields
    the list it appends to: after an exception the list is what it was when
    the exception was raised. *)
Definition try_pass {A : Type} (body : Py A) (unchanged : A) : Py A :=
  fun log =>
    match body log with
    | (inl _, log') => (inr unchanged, log')
    | (inr a, log') => (inr a, log')
    end.

Section Recording.

(** [isinstance(element, DB.FamilyInstance)]. *)
Variable isinstance_FamilyInstance : Element.t -> bool.

(** [script.py], lines 134-152: the names, the location and the sleeve
    parameters read from the host before the bounding boxes are compared;
    any of these reads may raise. *)
Variable read_properties : Element.t -> Py unit.

(** [script.py], lines 130-165, as far as [intersecting_elements] goes: the
    list of line 130, the guard of line 132, the [try] of line 133 around
    the reads and the two loops, and the [except] of lines 164-165. *)
Definition recorded_intersecting_elements (element : Element.t)
  (wall_collector beam_collector : list Element.t) : Py (list Intersecting) :=
  let intersecting_elements := [] in
  if isinstance_FamilyInstance element
  then try_pass
         (bind (read_properties element)
               (fun _ => ret (intersecting_elements_of
                                element wall_collector beam_collector)))
         intersecting_elements
  else ret intersecting_elements.

End Recording.

(** Host type tests and property reads for the scenes: every element a
    family instance or none, reads that return and reads that raise. *)
Definition each_is_FamilyInstance (element : Element.t) : bool := true.
Definition none_is_FamilyInstance (element : Element.t) : bool := false.
Definition reads_return (element : Element.t) : Py unit := ret tt.
Definition reads_raise (element : Element.t) : Py unit := raise AttributeError.

(** The test of lines 157 and 161. *)
Definition crossesb (equip_bbox : option BoundingBoxXYZ) (other : Element.t)
  : bool :=
  match Element.get_BoundingBox other, equip_bbox with
  | Some other_bbox, Some equip_bbox =>
      do_bounding_boxes_intersect equip_bbox other_bbox
  | _, _ => false
  end.

(** A collector answers this host for an equipment box. *)
Definition crosses (equip_bbox : BoundingBoxXYZ) (other : Element.t) : Prop :=
  exists other_bbox,
    Element.get_BoundingBox other = Some other_bbox
    /\ do_bounding_boxes_intersect equip_bbox other_bbox = true.

(** A beam under the riser, with the two floors as geometry, a beam
    without geometry, and a wall away from the riser. *)
Definition beam : Element.t :=
  Element.mk 21 (Some (mkBoundingBox (XYZ.mk (- (1)) (- (1)) (5 # 2))
                                     (XYZ.mk 2 2 4)))
             (Some [ASolid (mkSolid [horizontal_face 22 (31 # 10)])]).
Definition low_beam : Element.t :=
  Element.mk 26 (Some (mkBoundingBox (XYZ.mk (- (1)) (- (1)) (- (1)))
                                     (XYZ.mk 2 2 (1 # 10))))
             (Some far_scene).
Definition location_of_sleeve : XYZ.t := near_point.
Definition sleeve_log : Log :=
  [CallProject (horizontal_face 22 (31 # 10)) (XYZ.mk (1 # 2) (1 # 2) 3);
   CallComputeNormal (horizontal_face 22 (31 # 10)) centre;
   CallNewFamilyInstance (Some 22%nat) near_point
     (keep_unit (reference_vector XYZ.BasisZ)) 9].
Definition hollow_beam : Element.t :=
  Element.mk 23 (Some (mkBoundingBox (XYZ.mk 0 0 2) (XYZ.mk 1 1 4))) None.
Definition far_wall : Element.t :=
  Element.mk 24 (Some (mkBoundingBox (XYZ.mk 10 10 0) (XYZ.mk 11 20 3))) None.
Definition near_wall : Element.t :=
  Element.mk 25 (Some (mkBoundingBox (XYZ.mk (1 # 4) (- (1)) 0)
                                     (XYZ.mk (1 # 3) 5 3))) None.

(** ** Facts on the comparisons *)

Lemma Qlt_bool_iff (x y : Q) : Qlt_bool x y = true <-> x < y.
Proof. unfold Qlt_bool, Qlt. apply Z.ltb_lt. Qed.

Lemma Qlt_bool_false_iff (x y : Q) : Qlt_bool x y = false <-> y <= x.
Proof. unfold Qlt_bool, Qle. apply Z.ltb_ge. Qed.

Lemma Qle_bool_false_iff (x y : Q) : Qle_bool x y = false <-> y < x.
Proof. unfold Qle_bool, Qlt. apply Z.leb_gt. Qed.

(** ** Bounding boxes *)

(** C9: [do_bounding_boxes_intersect] gives the same answer with its two
    boxes swapped, and every box whose [Min] is componentwise at most its
    [Max] intersects itself. *)
Theorem do_bounding_boxes_intersect_sym_refl :
  (forall a b : BoundingBoxXYZ,
      do_bounding_boxes_intersect a b = do_bounding_boxes_intersect b a)
  /\ (forall a : BoundingBoxXYZ,
         well_formed_box a -> do_bounding_boxes_intersect a a = true).
Proof.
  split.
  - intros a b. unfold do_bounding_boxes_intersect, Qge_bool.
    set (p1 := Qle_bool (XYZ.X (Min a)) (XYZ.X (Max b))).
    set (p2 := Qle_bool (XYZ.X (Min b)) (XYZ.X (Max a))).
    set (p3 := Qle_bool (XYZ.Y (Min a)) (XYZ.Y (Max b))).
    set (p4 := Qle_bool (XYZ.Y (Min b)) (XYZ.Y (Max a))).
    set (p5 := Qle_bool (XYZ.Z (Min a)) (XYZ.Z (Max b))).
    set (p6 := Qle_bool (XYZ.Z (Min b)) (XYZ.Z (Max a))).
    destruct p1, p2, p3, p4, p5, p6; reflexivity.
  - intros a (Hx & Hy & Hz).
    unfold do_bounding_boxes_intersect, Qge_bool.
    apply Qle_bool_iff in Hx, Hy, Hz.
    rewrite Hx, Hy, Hz. reflexivity.
Qed.

Lemma do_bounding_boxes_intersect_sym_refl_witness :
  well_formed_box unit_box /\ do_bounding_boxes_intersect unit_box unit_box = true.
Proof.
  assert (W : well_formed_box unit_box).
  { unfold well_formed_box, unit_box; simpl. repeat split; discriminate. }
  split; [exact W|].
  exact (proj2 do_bounding_boxes_intersect_sym_refl unit_box W).
Defined.

(** ** Running the loops *)

(** A loop whose body always returns, and whose calls do not depend on the
    variables it threads, is a left fold; its calls are logged in order. *)
Lemma for_each_run {A S : Type} (body : A -> S -> Py S) (step : S -> A -> S)
  (calls : A -> Log) :
  (forall x s log, body x s log = (inr (step s x), log ++ calls x)) ->
  forall xs s log,
    for_each xs body s log = (inr (fold_left step xs s), log ++ flat_map calls xs).
Proof.
  intros Hbody xs. induction xs as [|x rest IH]; intros s log; simpl.
  - unfold ret. now rewrite app_nil_r.
  - unfold bind. rewrite Hbody, IH. now rewrite <- app_assoc.
Qed.

Lemma fold_left_flat_map {A B S : Type} (step : S -> B -> S) (f : A -> list B)
  (xs : list A) (s : S) :
  fold_left (fun s' x => fold_left step (f x) s') xs s
  = fold_left step (flat_map f xs) s.
Proof.
  revert s. induction xs as [|x rest IH]; intros s; simpl.
  - reflexivity.
  - now rewrite fold_left_app, IH.
Qed.

Lemma flat_map_flat_map {A B C : Type} (f : B -> list C) (g : A -> list B)
  (xs : list A) :
  flat_map (fun x => flat_map f (g x)) xs = flat_map f (flat_map g xs).
Proof.
  induction xs as [|x rest IH]; simpl.
  - reflexivity.
  - now rewrite flat_map_app, IH.
Qed.

Lemma flat_map_singleton {A B : Type} (f : A -> B) (xs : list A) :
  flat_map (fun x => [f x]) xs = map f xs.
Proof. induction xs as [|x rest IH]; simpl; congruence. Qed.

(** One face of the far-end search. *)
Lemma far_end_face_run point tolerance face st log :
  far_end_face point tolerance face st log
  = (inr (scan (within tolerance) (projection_of point face) st),
     log ++ [CallProject face point]).
Proof.
  unfold far_end_face, face_Project, host, bind, projection_of.
  destruct (Project face point) as [r|]; simpl; [|reflexivity].
  unfold keep, within; simpl.
  now destruct (lt_ereal (Distance r) (min_distance st) && Qle_bool (Distance r) tolerance).
Qed.

(** The loop over the geometry, for any loop body over the faces. *)
Lemma solids_loop_run (face_body : Face -> Search -> Py Search)
  (object_body : GeometryObject -> Search -> Py Search)
  (ok : Q -> bool) (cands : Face -> list (Face * Q)) (calls : Face -> Log) :
  (forall o st, object_body o st = for_each (faces_of o) face_body st) ->
  (forall f st log,
      face_body f st log = (inr (scan ok (cands f) st), log ++ calls f)) ->
  forall geo st log,
    for_each geo object_body st log
    = (inr (scan ok (flat_map cands (solid_faces geo)) st),
       log ++ flat_map calls (solid_faces geo)).
Proof.
  intros Hobj Hface geo st log.
  unfold solid_faces, scan.
  rewrite <- !flat_map_flat_map, <- fold_left_flat_map.
  apply for_each_run. intros o s l.
  rewrite Hobj, <- fold_left_flat_map.
  apply for_each_run. exact Hface.
Qed.

Lemma far_end_loop_run geo point tolerance st log :
  for_each geo (far_end_object point tolerance) st log
  = (inr (scan (within tolerance) (projections geo point) st),
     log ++ project_calls point (solid_faces geo)).
Proof.
  unfold projections, project_calls. rewrite <- flat_map_singleton.
  apply solids_loop_run with (face_body := far_end_face point tolerance).
  - intros o s. now destruct o.
  - intros. apply far_end_face_run.
Qed.

(** The far-end search: a scan of the projections under the scaled
    tolerance, and one [Project] call per face of a solid. *)
Lemma find_intersecting_face_based_on_far_end_run geo point bbox base log :
  find_intersecting_face_based_on_far_end geo point bbox base log
  = (inr (closest_face
            (scan (within (scaled_tolerance base bbox)) (projections geo point) start)),
     log ++ project_calls point (solid_faces geo)).
Proof.
  unfold find_intersecting_face_based_on_far_end, bind.
  now rewrite far_end_loop_run.
Qed.

(** One face of the primary pass of [find_intersecting_face]. *)
Lemma primary_face_run point face st log :
  primary_face point face st log
  = (inr (scan any_distance (projection_of point face) st),
     log ++ [CallProject face point]).
Proof.
  unfold primary_face, face_Project, host, bind, projection_of.
  destruct (Project face point) as [r|]; simpl; [|reflexivity].
  unfold keep, any_distance; simpl. rewrite andb_true_r.
  now destruct (lt_ereal (Distance r) (min_distance st)).
Qed.

Lemma primary_pass_run geo point log :
  primary_pass geo point log
  = (inr (scan any_distance (projections geo point) start),
     log ++ project_calls point (solid_faces geo)).
Proof.
  unfold primary_pass, projections, project_calls.
  rewrite <- flat_map_singleton.
  apply solids_loop_run with (face_body := primary_face point).
  - intros o s. now destruct o.
  - intros. apply primary_face_run.
Qed.

Lemma fold_left_map {A B S : Type} (step : S -> B -> S) (f : A -> B)
  (xs : list A) (s : S) :
  fold_left (fun s' x => step s' (f x)) xs s = fold_left step (map f xs) s.
Proof. revert s. induction xs as [|x rest IH]; intros s; simpl; auto. Qed.

(** One sample of the fallback pass. *)
Lemma fallback_sample_run point tolerance face uv st log :
  fallback_sample point tolerance face uv st log
  = (inr (keep (below tolerance) st (face, sample_distance point face uv)),
     log ++ [CallEvaluate face uv; CallComputeNormal face uv]).
Proof.
  unfold fallback_sample, face_Evaluate, face_ComputeNormal, host, bind; simpl.
  unfold keep, below, sample_distance; simpl.
  rewrite andb_comm, <- app_assoc; simpl.
  now destruct (lt_ereal _ _ && Qlt_bool _ _).
Qed.

Lemma fallback_face_run point tolerance face st log :
  fallback_face point tolerance face st log
  = (inr (scan (below tolerance) (samples_of point face) st),
     log ++ sample_calls face).
Proof.
  unfold fallback_face, samples_of, sample_calls, scan.
  destruct (IsPlanarFace face).
  - rewrite <- fold_left_map.
    apply (for_each_run _
             (fun s uv => keep (below tolerance) s
                               (face, sample_distance point face uv))
             (fun uv => [CallEvaluate face uv; CallComputeNormal face uv])).
    intros. apply fallback_sample_run.
  - unfold ret; simpl. now rewrite app_nil_r.
Qed.

Lemma fallback_pass_run geo point tolerance st log :
  fallback_pass geo point tolerance st log
  = (inr (scan (below tolerance) (samples geo point) st),
     log ++ flat_map sample_calls (solid_faces geo)).
Proof.
  unfold fallback_pass, samples.
  apply solids_loop_run with (face_body := fallback_face point tolerance).
  - intros o s. now destruct o.
  - intros. apply fallback_face_run.
Qed.

(** [find_intersecting_face]: the primary scan, then the sampling scan when
    line 74 asks for it. *)
Lemma find_intersecting_face_run geo point tolerance log :
  find_intersecting_face geo point tolerance log
  = let st := scan any_distance (projections geo point) start in
    if needs_fallback st tolerance
    then (inr (closest_face (scan (below tolerance) (samples geo point) st)),
          log ++ project_calls point (solid_faces geo)
              ++ flat_map sample_calls (solid_faces geo))
    else (inr (closest_face st), log ++ project_calls point (solid_faces geo)).
Proof.
  unfold find_intersecting_face, bind. rewrite primary_pass_run. simpl.
  destruct (needs_fallback _ tolerance).
  - rewrite fallback_pass_run. now rewrite <- app_assoc.
  - reflexivity.
Qed.

(** ** What a scan keeps *)

Lemma lt_ereal_trans (d e : Q) (m : ereal) :
  Qlt_bool d e = true -> lt_ereal e m = true -> lt_ereal d m = true.
Proof.
  destruct m as [q|]; simpl; [|reflexivity].
  rewrite !Qlt_bool_iff. apply Qlt_trans.
Qed.

Lemma scan_cons (ok : Q -> bool) (c : Face * Q) (rest : list (Face * Q))
  (st : Search) :
  scan ok (c :: rest) st = scan ok rest (keep ok st c).
Proof. reflexivity. Qed.

Lemma scan_app (ok : Q -> bool) (l1 l2 : list (Face * Q)) (st : Search) :
  scan ok (l1 ++ l2) st = scan ok l2 (scan ok l1 st).
Proof. apply fold_left_app. Qed.

(** One visit either leaves the state alone or installs the candidate. *)
Lemma keep_cases (ok : Q -> bool) (st : Search) (c : Face * Q) :
  (lt_ereal (snd c) (min_distance st) && ok (snd c) = false /\ keep ok st c = st)
  \/ (lt_ereal (snd c) (min_distance st) = true /\ ok (snd c) = true
      /\ keep ok st c = mkSearch (Some (fst c)) (Finite (snd c))).
Proof.
  unfold keep.
  destruct (lt_ereal (snd c) (min_distance st)), (ok (snd c)); simpl; auto.
Qed.

(** A scan ends in its initial state or in an acceptable candidate that
    beats the initial minimum. *)
Lemma scan_outcome (ok : Q -> bool) (cands : list (Face * Q)) (st : Search) :
  scan ok cands st = st
  \/ exists c, In c cands /\ ok (snd c) = true
               /\ lt_ereal (snd c) (min_distance st) = true
               /\ scan ok cands st = mkSearch (Some (fst c)) (Finite (snd c)).
Proof.
  revert st. induction cands as [|c rest IH]; intros st.
  - now left.
  - rewrite scan_cons.
    destruct (keep_cases ok st c) as [[_ E]|(Hlt & Hok & E)]; rewrite E.
    + destruct (IH st) as [E'|(c' & Hin & Hok' & Hlt' & E')].
      * now left.
      * right. exists c'. simpl. auto.
    + right.
      destruct (IH (mkSearch (Some (fst c)) (Finite (snd c))))
        as [E'|(c' & Hin & Hok' & Hlt' & E')].
      * exists c. simpl. auto.
      * exists c'. simpl in Hlt'. simpl. repeat split; auto.
        now apply lt_ereal_trans with (e := snd c).
Qed.

(** Candidates that are refused leave the state alone. *)
Lemma scan_stable (ok : Q -> bool) (cands : list (Face * Q)) (st : Search) :
  (forall c, In c cands ->
             lt_ereal (snd c) (min_distance st) && ok (snd c) = false) ->
  scan ok cands st = st.
Proof.
  induction cands as [|c rest IH]; intros H.
  - reflexivity.
  - rewrite scan_cons. unfold keep. rewrite (H c (or_introl eq_refl)).
    apply IH. intros c' Hin. apply H. now right.
Qed.

(** The running minimum only goes down. *)
Lemma scan_decreases (ok : Q -> bool) (cands : list (Face * Q)) (st : Search)
  (d : Q) :
  at_most (min_distance st) d -> at_most (min_distance (scan ok cands st)) d.
Proof.
  revert st. induction cands as [|c rest IH]; intros st H.
  - exact H.
  - rewrite scan_cons. apply IH.
    destruct (keep_cases ok st c) as [[_ E]|(Hlt & _ & E)]; rewrite E; auto.
    simpl. destruct (min_distance st) as [e|]; simpl in *; [|contradiction].
    apply Qlt_bool_iff in Hlt. lra.
Qed.

(** The final minimum is at most every acceptable candidate. *)
Lemma scan_at_most (ok : Q -> bool) (cands : list (Face * Q)) (st : Search)
  (c : Face * Q) :
  In c cands -> ok (snd c) = true ->
  at_most (min_distance (scan ok cands st)) (snd c).
Proof.
  revert st. induction cands as [|c0 rest IH]; intros st Hin Hok.
  - contradiction.
  - rewrite scan_cons. destruct Hin as [->|Hin]; [|now apply IH].
    apply scan_decreases.
    destruct (keep_cases ok st c) as [[Hno E]|(_ & _ & E)]; rewrite E; simpl.
    + rewrite Hok, andb_true_r in Hno.
      destruct (min_distance st) as [e|]; simpl in *; [|discriminate].
      now apply Qlt_bool_false_iff.
    + apply Qle_refl.
Qed.

(** The first candidate to reach the least distance is the one kept. *)
Lemma scan_first_closest (ok : Q -> bool) (cands : list (Face * Q))
  (st : Search) (face : Face) (d : Q) :
  first_closest cands face d -> ok d = true ->
  lt_ereal d (min_distance st) = true ->
  scan ok cands st = mkSearch (Some face) (Finite d).
Proof.
  intros (before & after & -> & Hbefore & Hafter) Hok Hlt.
  rewrite scan_app, scan_cons.
  assert (Hlt1 : lt_ereal d (min_distance (scan ok before st)) = true).
  { destruct (scan_outcome ok before st) as [->|(c & Hin & _ & _ & ->)]; auto.
    simpl. apply Qlt_bool_iff. now apply Hbefore. }
  unfold keep; simpl. rewrite Hlt1, Hok; simpl.
  apply scan_stable. intros c Hin; simpl.
  apply andb_false_intro1. apply Qlt_bool_false_iff. now apply Hafter.
Qed.

(** A scan that starts with no face ends with no face exactly when no
    candidate is acceptable. *)
Lemma scan_start_none (ok : Q -> bool) (cands : list (Face * Q)) :
  (forall c, In c cands -> ok (snd c) = false) ->
  scan ok cands start = start.
Proof.
  intros H. apply scan_stable. intros c Hin.
  rewrite (H c Hin). apply andb_false_r.
Qed.

Lemma scan_start_some (ok : Q -> bool) (cands : list (Face * Q))
  (c : Face * Q) :
  In c cands -> ok (snd c) = true ->
  exists c', In c' cands /\ ok (snd c') = true /\ snd c' <= snd c
             /\ scan ok cands start = mkSearch (Some (fst c')) (Finite (snd c')).
Proof.
  intros Hin Hok.
  pose proof (scan_at_most ok cands start c Hin Hok) as Hmin.
  destruct (scan_outcome ok cands start) as [E|(c' & Hin' & Hok' & _ & E)];
    rewrite E in Hmin; simpl in Hmin; [contradiction|].
  exists c'. auto.
Qed.

(** ** The candidates *)

Lemma in_projections geo point face d :
  In (face, d) (projections geo point)
  <-> In face (solid_faces geo)
      /\ exists r, Project face point = Some r /\ d = Distance r.
Proof.
  unfold projections. rewrite in_flat_map. split.
  - intros (f & Hf & Hin). unfold projection_of in Hin.
    destruct (Project f point) as [r|] eqn:E; simpl in Hin; [|contradiction].
    destruct Hin as [Heq|[]]. inversion Heq; subst. eauto.
  - intros (Hf & r & E & ->). exists face. split; auto.
    unfold projection_of. rewrite E. now left.
Qed.

Lemma in_samples geo point face d :
  In (face, d) (samples geo point)
  <-> In face (solid_faces geo) /\ IsPlanarFace face = true
      /\ exists uv, In uv sample_uvs /\ d = sample_distance point face uv.
Proof.
  unfold samples. rewrite in_flat_map. split.
  - intros (f & Hf & Hin). unfold samples_of in Hin.
    destruct (IsPlanarFace f) eqn:E; [|contradiction].
    apply in_map_iff in Hin. destruct Hin as (uv & Heq & Huv).
    inversion Heq; subst. eauto.
  - intros (Hf & E & uv & Huv & ->). exists face. split; auto.
    unfold samples_of. rewrite E. apply in_map_iff. eauto.
Qed.

(** ** The tolerance of the far-end search *)

Lemma py_max_spec (a b : Q) :
  (py_max a b = a \/ py_max a b = b) /\ a <= py_max a b /\ b <= py_max a b.
Proof.
  unfold py_max, Qgt_bool.
  destruct (Qlt_bool a b) eqn:E.
  - apply Qlt_bool_iff in E. repeat split; auto; lra.
  - apply Qlt_bool_false_iff in E. repeat split; auto; lra.
Qed.

Lemma project_calls_not_sampling point faces call :
  In call (project_calls point faces) -> is_sampling_call call = false.
Proof.
  unfold project_calls. rewrite in_map_iff. now intros (f & <- & _).
Qed.

(** The far-end search answers a face exactly when some face projects
    within the tolerance it computed. *)
Lemma far_end_answers geo point bbox base log :
  (exists face, fst (find_intersecting_face_based_on_far_end geo point bbox base log)
                = inr (Some face))
  <-> (exists c, In c (projections geo point)
                 /\ snd c <= scaled_tolerance base bbox).
Proof.
  rewrite find_intersecting_face_based_on_far_end_run; simpl.
  set (tol := scaled_tolerance base bbox). split.
  - intros (face & E).
    destruct (scan_outcome (within tol) (projections geo point) start)
      as [E'|(c & Hin & Hok & _ & E')]; rewrite E' in E; [discriminate|].
    exists c. split; auto. now apply Qle_bool_iff.
  - intros (c & Hin & Hle).
    destruct (scan_start_some (within tol) (projections geo point) c Hin)
      as (c' & _ & _ & _ & E).
    { now apply Qle_bool_iff. }
    exists (fst c'). now rewrite E.
Qed.

(** C2: the nominal diameter is the larger of the X and Y extents of the
    box; the tolerance the far-end search works with is
    [base_tolerance * (diameter / threshold)] when the diameter exceeds the
    threshold 0.3937, and [base_tolerance] otherwise. *)
Theorem scaled_tolerance_spec (bbox : BoundingBoxXYZ) (base_tolerance : Q) :
  let x_extent := XYZ.X (Max bbox) - XYZ.X (Min bbox) in
  let y_extent := XYZ.Y (Max bbox) - XYZ.Y (Min bbox) in
  let tolerance := scaled_tolerance base_tolerance bbox in
  (diameter bbox = x_extent \/ diameter bbox = y_extent)
  /\ x_extent <= diameter bbox /\ y_extent <= diameter bbox
  /\ threshold == 3937 / 10000
  /\ (threshold < diameter bbox ->
      tolerance = base_tolerance * (diameter bbox / threshold))
  /\ (~ threshold < diameter bbox -> tolerance = base_tolerance)
  /\ (forall geo point log,
         (exists face,
             fst (find_intersecting_face_based_on_far_end
                    geo point bbox base_tolerance log) = inr (Some face))
         <-> (exists face r, In face (solid_faces geo)
                             /\ Project face point = Some r
                             /\ Distance r <= tolerance)).
Proof.
  cbv zeta.
  destruct (py_max_spec (XYZ.X (Max bbox) - XYZ.X (Min bbox))
                        (XYZ.Y (Max bbox) - XYZ.Y (Min bbox)))
    as (Hcase & Hx & Hy).
  fold (diameter bbox) in Hcase, Hx, Hy.
  repeat split; auto.
  - intros H. unfold scaled_tolerance, Qgt_bool.
    apply Qlt_bool_iff in H. now rewrite H.
  - intros H. unfold scaled_tolerance, Qgt_bool.
    destruct (Qlt_bool threshold (diameter bbox)) eqn:E; auto.
    apply Qlt_bool_iff in E. contradiction.
  - intros H. apply far_end_answers in H. destruct H as ([face d] & Hin & Hle).
    apply in_projections in Hin. destruct Hin as (Hf & r & E & ->).
    exists face, r. auto.
  - intros (face & r & Hf & E & Hle). apply far_end_answers.
    exists (face, Distance r). split; auto.
    apply in_projections. eauto.
Qed.

Lemma scaled_tolerance_spec_witness :
  threshold < diameter unit_box
  /\ ~ threshold < diameter small_box
  /\ scaled_tolerance default_tolerance unit_box
     = default_tolerance * (diameter unit_box / threshold)
  /\ scaled_tolerance default_tolerance small_box = default_tolerance.
Proof.
  assert (H1 : threshold < diameter unit_box) by reflexivity.
  assert (H2 : ~ threshold < diameter small_box) by (intros H; discriminate H).
  split; [exact H1|]. split; [exact H2|]. split.
  - exact (proj1 (proj2 (proj2 (proj2 (proj2
             (scaled_tolerance_spec unit_box default_tolerance))))) H1).
  - exact (proj1 (proj2 (proj2 (proj2 (proj2 (proj2
             (scaled_tolerance_spec small_box default_tolerance)))))) H2).
Defined.

(** A box one foot across loosens the default tolerance enough to accept
    a floor 0.4 away, which the same search refuses for a box below the
    threshold. *)
Lemma scaling_accepts_more :
  Qlt_bool default_tolerance (4 # 10) = true
  /\ Qle_bool (4 # 10) (scaled_tolerance default_tolerance unit_box) = true
  /\ fst (find_intersecting_face_based_on_far_end
            deep_scene near_point unit_box default_tolerance [])
     = inr (Some deep_floor)
  /\ fst (find_intersecting_face_based_on_far_end
            deep_scene near_point small_box default_tolerance [])
     = inr None.
Proof. repeat split; vm_compute; reflexivity. Qed.

(** ** The far-end search *)

(** C8: a face answered by [find_intersecting_face_based_on_far_end] is a
    face of a solid whose projection distance is at most the tolerance the
    function computed; the function calls [Project] once per face of a solid
    and nothing else, so no parametric sample is ever taken; and when no
    face projects within the tolerance the answer is [None]. *)
Theorem far_end_postcondition (geo : GeometryElement) (point : XYZ.t)
  (bbox : BoundingBoxXYZ) (base_tolerance : Q) (log : Log) :
  let tolerance := scaled_tolerance base_tolerance bbox in
  let outcome :=
    find_intersecting_face_based_on_far_end geo point bbox base_tolerance log in
  (exists answer, fst outcome = inr answer)
  /\ (forall face, fst outcome = inr (Some face) ->
        In face (solid_faces geo)
        /\ exists r, Project face point = Some r /\ Distance r <= tolerance)
  /\ snd outcome = log ++ project_calls point (solid_faces geo)
  /\ (forall call, In call (project_calls point (solid_faces geo)) ->
        is_project_call call = true /\ is_sampling_call call = false)
  /\ ((forall face r, In face (solid_faces geo) ->
         Project face point = Some r -> tolerance < Distance r) ->
      fst outcome = inr None).
Proof.
  cbv zeta. rewrite find_intersecting_face_based_on_far_end_run; simpl.
  set (tol := scaled_tolerance base_tolerance bbox).
  split; [eauto|]. split; [|split; [reflexivity|split]].
  - intros face E.
    destruct (scan_outcome (within tol) (projections geo point) start)
      as [E'|([f d] & Hin & Hok & _ & E')]; rewrite E' in E; [discriminate|].
    simpl in *. inversion E; subst f.
    apply in_projections in Hin. destruct Hin as (Hf & r & Hr & ->).
    split; auto. exists r. split; auto. now apply Qle_bool_iff.
  - intros call Hin. unfold project_calls in Hin.
    apply in_map_iff in Hin. now destruct Hin as (f & <- & _).
  - intros Hfar. rewrite scan_start_none; auto.
    intros [f d] Hin. apply in_projections in Hin.
    destruct Hin as (Hf & r & Hr & ->). simpl.
    apply Qle_bool_false_iff. eauto.
Qed.

Lemma far_end_postcondition_witness :
  fst (find_intersecting_face_based_on_far_end
         far_scene far_point small_box default_tolerance []) = inr None.
Proof.
  apply (far_end_postcondition far_scene far_point small_box default_tolerance []).
  intros face r [<-|[]] E. inversion E. reflexivity.
Defined.

(** ** Geometry that is not a solid *)

Lemma solid_faces_filter (geo : GeometryElement) :
  solid_faces (filter isinstance_Solid geo) = solid_faces geo.
Proof.
  unfold solid_faces.
  induction geo as [|o rest IH]; simpl; [reflexivity|].
  destruct o; simpl; now rewrite ?IH.
Qed.

(** C10: both searches give the same answer, after the same host calls,
    on a geometry and on its solids alone; an object that is not a solid
    leaves the variables of every loop as they were and calls nothing. *)
Theorem only_solids_are_examined (geo : GeometryElement) (point : XYZ.t)
  (bbox : BoundingBoxXYZ) (base_tolerance tolerance : Q) (log : Log) :
  find_intersecting_face_based_on_far_end geo point bbox base_tolerance log
  = find_intersecting_face_based_on_far_end
      (filter isinstance_Solid geo) point bbox base_tolerance log
  /\ find_intersecting_face geo point tolerance log
     = find_intersecting_face (filter isinstance_Solid geo) point tolerance log
  /\ (forall geo_obj st,
         isinstance_Solid geo_obj = false ->
         far_end_object point tolerance geo_obj st log = (inr st, log)
         /\ primary_object point geo_obj st log = (inr st, log)
         /\ fallback_object point tolerance geo_obj st log = (inr st, log)).
Proof.
  split; [|split].
  - rewrite !find_intersecting_face_based_on_far_end_run.
    unfold projections. now rewrite solid_faces_filter.
  - rewrite !find_intersecting_face_run.
    unfold projections, samples. now rewrite solid_faces_filter.
  - intros geo_obj st H. destruct geo_obj; try discriminate H; auto.
Qed.

Lemma only_solids_are_examined_witness :
  far_end_object far_point default_tolerance ACurve start [] = (inr start, [])
  /\ primary_object far_point ACurve start [] = (inr start, [])
  /\ fallback_object far_point default_tolerance ACurve start []
     = (inr start, []).
Proof.
  apply (proj2 (proj2 (only_solids_are_examined
                         two_floors far_point unit_box default_tolerance
                         default_tolerance []))).
  reflexivity.
Defined.

(** ** The answer of [find_intersecting_face] beyond the tolerance *)

(** C1, on the code: with one floor one foot below the probe and the
    tolerance 0.2, the only projection distance and all sixteen sample
    distances exceed the tolerance, and [find_intersecting_face] still
    answers the floor: the closest face of the primary pass stays in
    [closest_face] when the fallback pass accepts nothing. *)
Theorem find_intersecting_face_answers_beyond_tolerance :
  projections far_scene far_point = [(floor, 1)]
  /\ forallb (fun c => Qlt_bool default_tolerance (snd c))
             (projections far_scene far_point) = true
  /\ length (samples far_scene far_point) = 16%nat
  /\ forallb (fun c => Qlt_bool default_tolerance (snd c))
             (samples far_scene far_point) = true
  /\ fst (find_intersecting_face far_scene far_point default_tolerance [])
     = inr (Some floor)
  /\ fst (find_intersecting_face_based_on_far_end
            far_scene far_point small_box default_tolerance [])
     = inr None.
Proof.
  repeat split; vm_compute; reflexivity.
Qed.

(** ** The two passes of [find_intersecting_face] *)

(** After the primary pass, line 74 asks for the fallback pass exactly when
    no face projects within the tolerance. *)
Lemma primary_needs_fallback geo point tolerance :
  needs_fallback (scan any_distance (projections geo point) start) tolerance = true
  <-> (forall c, In c (projections geo point) -> tolerance < snd c).
Proof.
  set (st := scan any_distance (projections geo point) start).
  split.
  - intros Hneed c Hin.
    pose proof (scan_at_most any_distance _ start c Hin eq_refl) as Hmin.
    fold st in Hmin.
    destruct (scan_outcome any_distance (projections geo point) start)
      as [E|(c' & _ & _ & _ & E)]; fold st in E; rewrite E in Hmin, Hneed;
      simpl in Hmin, Hneed; [contradiction|].
    apply Qlt_bool_iff in Hneed. lra.
  - intros Hfar.
    destruct (scan_outcome any_distance (projections geo point) start)
      as [E|(c' & Hin & _ & _ & E)]; fold st in E; rewrite E; [reflexivity|].
    unfold needs_fallback; simpl. apply Qlt_bool_iff. now apply Hfar.
Qed.

(** C4: when some face of a solid projects within the tolerance, the
    primary pass ends on the closest projected face, [find_intersecting_face]
    answers that face, and only [Project] calls are made; conversely a
    sampling call is made only when every projection distance exceeds the
    tolerance. *)
Theorem fallback_only_after_primary_miss (geo : GeometryElement)
  (point : XYZ.t) (tolerance : Q) (log : Log) :
  (forall face r,
      In face (solid_faces geo) -> Project face point = Some r ->
      Distance r <= tolerance ->
      exists best e,
        primary_pass geo point log
        = (inr (mkSearch (Some best) (Finite e)),
           log ++ project_calls point (solid_faces geo))
        /\ In (best, e) (projections geo point)
        /\ e <= tolerance
        /\ (forall c, In c (projections geo point) -> e <= snd c)
        /\ needs_fallback (mkSearch (Some best) (Finite e)) tolerance = false
        /\ find_intersecting_face geo point tolerance log
           = (inr (Some best), log ++ project_calls point (solid_faces geo)))
  /\ (forall calls call,
         snd (find_intersecting_face geo point tolerance log) = log ++ calls ->
         In call calls -> is_sampling_call call = true ->
         forall face r,
           In face (solid_faces geo) -> Project face point = Some r ->
           tolerance < Distance r).
Proof.
  split.
  - intros face r Hf Hr Hle.
    assert (Hin : In (face, Distance r) (projections geo point))
      by (apply in_projections; eauto).
    destruct (scan_start_some any_distance _ (face, Distance r) Hin eq_refl)
      as ([best e] & Hbest & _ & Hle' & E). simpl in Hle', E.
    assert (Hno : needs_fallback (mkSearch (Some best) (Finite e)) tolerance
                  = false).
    { unfold needs_fallback; simpl. apply Qlt_bool_false_iff. lra. }
    exists best, e. rewrite find_intersecting_face_run, primary_pass_run.
    cbv zeta. rewrite E, Hno. repeat split; auto; try lra.
    intros c Hc.
    pose proof (scan_at_most any_distance _ start c Hc eq_refl) as Hmin.
    now rewrite E in Hmin.
  - intros calls call Hlog Hcall Hsampling face r Hf Hr.
    rewrite find_intersecting_face_run in Hlog. cbv zeta in Hlog.
    destruct (needs_fallback _ tolerance) eqn:Hneed.
    + rewrite primary_needs_fallback in Hneed.
      apply (Hneed (face, Distance r)). apply in_projections; eauto.
    + simpl in Hlog. apply app_inv_head in Hlog. subst calls.
      apply project_calls_not_sampling in Hcall. congruence.
Qed.

Lemma fallback_only_after_primary_miss_witness :
  exists best e,
    primary_pass two_floors near_point []
    = (inr (mkSearch (Some best) (Finite e)),
       [] ++ project_calls near_point (solid_faces two_floors))
    /\ In (best, e) (projections two_floors near_point)
    /\ e <= default_tolerance
    /\ (forall c, In c (projections two_floors near_point) -> e <= snd c)
    /\ needs_fallback (mkSearch (Some best) (Finite e)) default_tolerance = false
    /\ find_intersecting_face two_floors near_point default_tolerance []
       = (inr (Some best), [] ++ project_calls near_point (solid_faces two_floors)).
Proof.
  apply (proj1 (fallback_only_after_primary_miss
                  two_floors near_point default_tolerance [])
           next_floor (mkIntersectionResult (15 # 100))).
  - right. left. reflexivity.
  - reflexivity.
  - discriminate.
Defined.

(** ** Which face is selected *)

(** Both searches answer the first face to reach the least projection
    distance, provided that distance is within the tolerance. *)
Lemma far_end_first_closest geo point bbox base log face d :
  first_closest (projections geo point) face d ->
  d <= scaled_tolerance base bbox ->
  fst (find_intersecting_face_based_on_far_end geo point bbox base log)
  = inr (Some face).
Proof.
  intros Hfirst Hle.
  rewrite find_intersecting_face_based_on_far_end_run; simpl.
  rewrite (scan_first_closest _ _ _ face d Hfirst); auto.
  now apply Qle_bool_iff.
Qed.

Lemma primary_first_closest geo point tolerance log face d :
  first_closest (projections geo point) face d ->
  d <= tolerance ->
  fst (find_intersecting_face geo point tolerance log) = inr (Some face).
Proof.
  intros Hfirst Hle.
  rewrite find_intersecting_face_run. cbv zeta.
  rewrite (scan_first_closest any_distance _ start face d Hfirst); auto.
  unfold needs_fallback; simpl.
  apply Qlt_bool_false_iff in Hle. unfold Qgt_bool. now rewrite Hle.
Qed.

(** The candidates of a geometry whose solids have two faces, both of which
    project. *)
Lemma projections_of_two geo point f1 f2 r1 r2 :
  solid_faces geo = [f1; f2] ->
  Project f1 point = Some r1 -> Project f2 point = Some r2 ->
  projections geo point = [(f1, Distance r1); (f2, Distance r2)].
Proof.
  intros E E1 E2. unfold projections. rewrite E; simpl.
  unfold projection_of. now rewrite E1, E2.
Qed.

(** C5: of two faces with projection distances [d1 < d2 <= tolerance], in
    either order of enumeration, the face at [d1] is selected; of two faces
    at the same distance within the tolerance the first enumerated is
    selected; in general the answer is the first face to reach the least
    projection distance.  The answer is one [option Face], a function of the
    geometry, the point and the tolerance. *)
Theorem closest_face_is_selected (geo : GeometryElement) (point : XYZ.t)
  (bbox : BoundingBoxXYZ) (base_tolerance tolerance : Q) (log : Log) :
  let far_end :=
    fst (find_intersecting_face_based_on_far_end
           geo point bbox base_tolerance log) in
  let plain := fst (find_intersecting_face geo point tolerance log) in
  (forall f1 f2 r1 r2,
      solid_faces geo = [f1; f2] \/ solid_faces geo = [f2; f1] ->
      Project f1 point = Some r1 -> Project f2 point = Some r2 ->
      Distance r1 < Distance r2 ->
      (Distance r2 <= scaled_tolerance base_tolerance bbox ->
       far_end = inr (Some f1))
      /\ (Distance r2 <= tolerance -> plain = inr (Some f1)))
  /\ (forall f1 f2 r1 r2,
         solid_faces geo = [f1; f2] ->
         Project f1 point = Some r1 -> Project f2 point = Some r2 ->
         Distance r1 == Distance r2 ->
         (Distance r1 <= scaled_tolerance base_tolerance bbox ->
          far_end = inr (Some f1))
         /\ (Distance r1 <= tolerance -> plain = inr (Some f1)))
  /\ (forall face d,
         first_closest (projections geo point) face d ->
         (d <= scaled_tolerance base_tolerance bbox ->
          far_end = inr (Some face))
         /\ (d <= tolerance -> plain = inr (Some face))).
Proof.
  cbv zeta.
  assert (General : forall face d,
             first_closest (projections geo point) face d ->
             (d <= scaled_tolerance base_tolerance bbox ->
              fst (find_intersecting_face_based_on_far_end
                     geo point bbox base_tolerance log) = inr (Some face))
             /\ (d <= tolerance ->
                 fst (find_intersecting_face geo point tolerance log)
                 = inr (Some face))).
  { intros face d Hfirst. split; intros Hle.
    - now apply far_end_first_closest with (d := d).
    - now apply primary_first_closest with (d := d). }
  split; [|split; [|exact General]].
  - intros f1 f2 r1 r2 Horder E1 E2 Hlt.
    assert (Hfirst : first_closest (projections geo point) f1 (Distance r1)).
    { destruct Horder as [E|E].
      - rewrite (projections_of_two geo point f1 f2 r1 r2 E E1 E2).
        exists [], [(f2, Distance r2)]. repeat split.
        + intros c [].
        + intros c [<-|[]]. simpl. lra.
      - rewrite (projections_of_two geo point f2 f1 r2 r1 E E2 E1).
        exists [(f2, Distance r2)], []. repeat split.
        + intros c [<-|[]]. exact Hlt.
        + intros c []. }
    destruct (General f1 (Distance r1) Hfirst) as [Hfar Hplain].
    split; intros Hle; [apply Hfar|apply Hplain]; lra.
  - intros f1 f2 r1 r2 E E1 E2 Htie.
    apply General.
    rewrite (projections_of_two geo point f1 f2 r1 r2 E E1 E2).
    exists [], [(f2, Distance r2)]. repeat split.
    + intros c [].
    + intros c [<-|[]]. simpl. lra.
Qed.

Lemma closest_face_is_selected_witness :
  fst (find_intersecting_face_based_on_far_end
         two_floors near_point small_box default_tolerance [])
  = inr (Some near_floor)
  /\ fst (find_intersecting_face two_floors near_point default_tolerance [])
     = inr (Some near_floor).
Proof.
  destruct (proj1 (closest_face_is_selected
                     two_floors near_point small_box default_tolerance
                     default_tolerance [])
              near_floor next_floor
              (mkIntersectionResult (1 # 10)) (mkIntersectionResult (15 # 100)))
    as [Hfar Hplain].
  - left. reflexivity.
  - reflexivity.
  - reflexivity.
  - reflexivity.
  - split; [apply Hfar|apply Hplain]; discriminate.
Defined.

(** ** Faces that do not project *)

(** Reading [Distance] off a missing projection is what would raise. *)
Lemma get_Distance_None_raises (log : Log) :
  get_Distance None log = (inl AttributeError, log).
Proof. reflexivity. Qed.

Lemma face_loop_skips (body : Face -> Search -> Py Search) (ok : Q -> bool)
  (point : XYZ.t) :
  (forall f st log,
      body f st log
      = (inr (scan ok (projection_of point f) st), log ++ [CallProject f point])) ->
  forall before face after st log,
    Project face point = None ->
    fst (for_each (before ++ face :: after) body st log)
    = fst (for_each (before ++ after) body st log).
Proof.
  intros Hbody before face after st log Hnone.
  rewrite !(for_each_run body
              (fun s f => scan ok (projection_of point f) s)
              (fun f => [CallProject f point]) Hbody); simpl.
  unfold scan. rewrite !fold_left_flat_map, !flat_map_app; simpl.
  unfold projection_of at 2. now rewrite Hnone.
Qed.

(** On a box and a geometry that are there, the searches run as on typed
    arguments. *)
Lemma py_find_intersecting_face_based_on_far_end_typed geo point bbox base log :
  py_find_intersecting_face_based_on_far_end (Some geo) point (Some bbox) base log
  = find_intersecting_face_based_on_far_end geo point bbox base log.
Proof. reflexivity. Qed.

Lemma py_find_intersecting_face_typed geo point tolerance log :
  py_find_intersecting_face (Some geo) point tolerance log
  = find_intersecting_face geo point tolerance log.
Proof.
  unfold py_find_intersecting_face, find_intersecting_face, primary_pass,
    fallback_pass, iterate, bind, ret.
  destruct (for_each geo (primary_object point) start log) as [[e|st] log1];
    [reflexivity|].
  now destruct (needs_fallback st tolerance).
Qed.

(** C6, as the code has it: on a bounding box and a geometry that are not
    [None], and with host calls that return, neither search raises; a face
    whose projection is undefined leaves the variables of the loop as they
    were, and the loop goes on to the faces after it; when no face projects
    within the tolerance the far-end search answers [None], and when no
    face projects and no sample is below the tolerance
    [find_intersecting_face] answers [None].  On a [None] bounding box the
    far-end search raises [AttributeError], and on a [None] geometry either
    search raises [TypeError], in both cases before any host call. *)
Theorem searches_raise_only_on_None (geo : GeometryElement) (point : XYZ.t)
  (bbox : BoundingBoxXYZ) (base_tolerance tolerance : Q) (log : Log) :
  (exists answer log',
      py_find_intersecting_face_based_on_far_end
        (Some geo) point (Some bbox) base_tolerance log
      = (inr answer, log')
      /\ find_intersecting_face_based_on_far_end geo point bbox base_tolerance log
         = (inr answer, log'))
  /\ (exists answer log',
         py_find_intersecting_face (Some geo) point tolerance log
         = (inr answer, log')
         /\ find_intersecting_face geo point tolerance log = (inr answer, log'))
  /\ (forall geo_element,
         py_find_intersecting_face_based_on_far_end
           geo_element point None base_tolerance log
         = (inl AttributeError, log))
  /\ py_find_intersecting_face_based_on_far_end
       None point (Some bbox) base_tolerance log
     = (inl TypeError, log)
  /\ py_find_intersecting_face None point tolerance log = (inl TypeError, log)
  /\ (forall face st,
         Project face point = None ->
         far_end_face point tolerance face st log
         = (inr st, log ++ [CallProject face point])
         /\ primary_face point face st log
            = (inr st, log ++ [CallProject face point]))
  /\ (forall before face after st,
         Project face point = None ->
         fst (for_each (before ++ face :: after)
                       (far_end_face point tolerance) st log)
         = fst (for_each (before ++ after) (far_end_face point tolerance) st log)
         /\ fst (for_each (before ++ face :: after) (primary_face point) st log)
            = fst (for_each (before ++ after) (primary_face point) st log))
  /\ ((forall face r,
          In face (solid_faces geo) -> Project face point = Some r ->
          scaled_tolerance base_tolerance bbox < Distance r) ->
      fst (find_intersecting_face_based_on_far_end
             geo point bbox base_tolerance log) = inr None)
  /\ ((forall face, In face (solid_faces geo) -> Project face point = None) ->
      (forall face uv,
          In face (solid_faces geo) -> IsPlanarFace face = true ->
          In uv sample_uvs -> tolerance <= sample_distance point face uv) ->
      fst (find_intersecting_face geo point tolerance log) = inr None).
Proof.
  split; [|split; [|split; [|split; [|split; [|split; [|split; [|split]]]]]]].
  - rewrite py_find_intersecting_face_based_on_far_end_typed.
    rewrite find_intersecting_face_based_on_far_end_run. eauto.
  - rewrite py_find_intersecting_face_typed.
    rewrite find_intersecting_face_run. cbv zeta.
    destruct (needs_fallback _ tolerance); eauto.
  - reflexivity.
  - reflexivity.
  - reflexivity.
  - intros face st Hnone.
    rewrite far_end_face_run, primary_face_run.
    unfold projection_of. now rewrite Hnone.
  - intros before face after st Hnone. split.
    + apply face_loop_skips with (ok := within tolerance) (point := point); auto.
      intros. apply far_end_face_run.
    + apply face_loop_skips with (ok := any_distance) (point := point); auto.
      intros. apply primary_face_run.
  - intros Hfar.
    rewrite find_intersecting_face_based_on_far_end_run; simpl.
    rewrite scan_start_none; auto.
    intros [f d] Hin. apply in_projections in Hin.
    destruct Hin as (Hf & r & Hr & ->). simpl.
    apply Qle_bool_false_iff. eauto.
  - intros Hnone Hsamples.
    rewrite find_intersecting_face_run. cbv zeta.
    assert (E : scan any_distance (projections geo point) start = start).
    { destruct (scan_outcome any_distance (projections geo point) start)
        as [E|([f d] & Hin & _)]; auto.
      apply in_projections in Hin. destruct Hin as (Hf & r & Hr & _).
      rewrite (Hnone f Hf) in Hr. discriminate. }
    rewrite E. simpl. rewrite scan_start_none; auto.
    intros [f d] Hin. apply in_samples in Hin.
    destruct Hin as (Hf & Hplanar & uv & Huv & ->). simpl.
    apply Qlt_bool_false_iff. auto.
Qed.

Lemma searches_raise_only_on_None_witness :
  far_end_face near_point default_tolerance (curved_face 2) start []
  = (inr start, [] ++ [CallProject (curved_face 2) near_point])
  /\ primary_face near_point (curved_face 2) start []
     = (inr start, [] ++ [CallProject (curved_face 2) near_point]).
Proof.
  apply (proj1 (proj2 (proj2 (proj2 (proj2 (proj2
           (searches_raise_only_on_None
              curved_scene near_point small_box
              default_tolerance default_tolerance []))))))).
  reflexivity.
Defined.

(** C6, as stated, fails: for the pump [ghost] the host answers no bounding
    box, and the far-end search called on it as in line 246 raises
    [AttributeError]; for the beam [hollow_beam] the host answers no
    geometry, and either search called on it raises [TypeError]. *)
Lemma searches_raise_on_None :
  Element.get_BoundingBox ghost = None
  /\ Element.get_Geometry hollow_beam = None
  /\ py_find_intersecting_face_based_on_far_end
       (Element.get_Geometry beam) far_point
       (Element.get_BoundingBox ghost) default_tolerance []
     = (inl AttributeError, [])
  /\ py_find_intersecting_face_based_on_far_end
       (Element.get_Geometry hollow_beam) far_point
       (Element.get_BoundingBox riser) default_tolerance []
     = (inl TypeError, [])
  /\ py_find_intersecting_face
       (Element.get_Geometry hollow_beam) far_point default_tolerance []
     = (inl TypeError, [])
  /\ ~ (forall geo_element point equip_bbox base_tolerance log,
           exists answer log',
             py_find_intersecting_face_based_on_far_end
               geo_element point equip_bbox base_tolerance log
             = (inr answer, log')).
Proof.
  repeat (split; [reflexivity|]).
  intros H.
  destruct (H None far_point None default_tolerance []) as (answer & log' & E).
  discriminate E.
Qed.

(** ** The fallback pass *)

Lemma in_sample_uvs (uv : UV) :
  In uv sample_uvs <-> In (U uv) sample_grid /\ In (V uv) sample_grid.
Proof.
  unfold sample_uvs. rewrite in_flat_map. split.
  - intros (u & Hu & Hin). apply in_map_iff in Hin.
    destruct Hin as (v & <- & Hv). auto.
  - intros [Hu Hv]. exists (U uv). split; auto.
    apply in_map_iff. exists (V uv). split; auto. now destruct uv.
Qed.

Lemma in_sample_calls (faces : list Face) (call : HostCall) :
  In call (flat_map sample_calls faces)
  <-> exists face uv,
        In face faces /\ IsPlanarFace face = true /\ In uv sample_uvs
        /\ (call = CallEvaluate face uv \/ call = CallComputeNormal face uv).
Proof.
  rewrite in_flat_map. unfold sample_calls. split.
  - intros (face & Hf & Hin).
    destruct (IsPlanarFace face) eqn:E; [|contradiction].
    apply in_flat_map in Hin. destruct Hin as (uv & Huv & [<-|[<-|[]]]);
      exists face, uv; auto.
  - intros (face & uv & Hf & E & Huv & Hcall). exists face. split; auto.
    rewrite E. apply in_flat_map. exists uv. split; auto.
    destruct Hcall as [->| ->]; simpl; auto.
Qed.

(** When the primary pass found nothing within the tolerance and some
    sample of a planar face is below it, the fallback pass ends on a planar
    face with the least sample distance. *)
Lemma fallback_selects geo point tolerance face uv :
  (forall c, In c (projections geo point) -> tolerance < snd c) ->
  In face (solid_faces geo) -> IsPlanarFace face = true -> In uv sample_uvs ->
  sample_distance point face uv < tolerance ->
  exists c,
    In c (samples geo point) /\ snd c < tolerance
    /\ (forall c', In c' (samples geo point) -> snd c <= snd c')
    /\ scan (below tolerance) (samples geo point)
            (scan any_distance (projections geo point) start)
       = mkSearch (Some (fst c)) (Finite (snd c)).
Proof.
  intros Hfar Hf Hplanar Huv Hbelow.
  set (st := scan any_distance (projections geo point) start).
  assert (Hin : In (face, sample_distance point face uv) (samples geo point))
    by (apply in_samples; eauto).
  assert (Hok : below tolerance (sample_distance point face uv) = true)
    by now apply Qlt_bool_iff.
  pose proof (scan_at_most (below tolerance) _ st _ Hin Hok) as Hmin.
  destruct (scan_outcome (below tolerance) (samples geo point) st)
    as [E|(c & Hc & Hokc & _ & E)].
  - exfalso. rewrite E in Hmin. unfold st in Hmin.
    destruct (scan_outcome any_distance (projections geo point) start)
      as [E'|(c' & Hc' & _ & _ & E')]; rewrite E' in Hmin; simpl in Hmin;
      [contradiction|].
    specialize (Hfar c' Hc'). lra.
  - exists c. apply Qlt_bool_iff in Hokc. repeat split; auto.
    intros c' Hc'. destruct (below tolerance (snd c')) eqn:Hokc'.
    + pose proof (scan_at_most (below tolerance) _ st _ Hc' Hokc') as Hmin'.
      now rewrite E in Hmin'.
    + apply Qlt_bool_false_iff in Hokc'. lra.
Qed.

(** C3, as the code has it: the fallback pass takes the sixteen samples
    [u, v] in 0.2, 0.4, 0.6, 0.8 on every planar face of every solid and on
    no other face; the distance of a sample is the absolute value of the
    dot product of (point - sample point) with the sample normal; and when
    the primary pass found nothing within the tolerance and some sample is
    below it, the answer is a planar face with the least sample distance. *)
Theorem fallback_samples_planar_faces (geo : GeometryElement) (point : XYZ.t)
  (tolerance : Q) (log : Log) :
  length sample_uvs = 16%nat
  /\ (forall uv, In uv sample_uvs
                 <-> In (U uv) [2 # 10; 4 # 10; 6 # 10; 8 # 10]
                     /\ In (V uv) [2 # 10; 4 # 10; 6 # 10; 8 # 10])
  /\ (forall face uv,
         sample_distance point face uv
         = Qabs (XYZ.DotProduct (XYZ.Subtract point (Evaluate face uv))
                                (ComputeNormal face uv)))
  /\ ((forall face r,
          In face (solid_faces geo) -> Project face point = Some r ->
          tolerance < Distance r) ->
      snd (find_intersecting_face geo point tolerance log)
      = log ++ project_calls point (solid_faces geo)
            ++ flat_map sample_calls (solid_faces geo)
      /\ (forall face uv,
             In (CallEvaluate face uv) (flat_map sample_calls (solid_faces geo))
             <-> In face (solid_faces geo) /\ IsPlanarFace face = true
                 /\ In uv sample_uvs)
      /\ (forall face uv,
             In (CallComputeNormal face uv)
                (flat_map sample_calls (solid_faces geo))
             <-> In face (solid_faces geo) /\ IsPlanarFace face = true
                 /\ In uv sample_uvs)
      /\ (forall face uv,
             In face (solid_faces geo) -> IsPlanarFace face = true ->
             In uv sample_uvs -> sample_distance point face uv < tolerance ->
             exists best best_uv,
               In best (solid_faces geo) /\ IsPlanarFace best = true
               /\ In best_uv sample_uvs
               /\ sample_distance point best best_uv < tolerance
               /\ (forall face' uv',
                      In face' (solid_faces geo) -> IsPlanarFace face' = true ->
                      In uv' sample_uvs ->
                      sample_distance point best best_uv
                      <= sample_distance point face' uv')
               /\ fst (find_intersecting_face geo point tolerance log)
                  = inr (Some best))).
Proof.
  split; [reflexivity|]. split; [exact in_sample_uvs|]. split; [reflexivity|].
  intros Hfar.
  assert (Hfar' : forall c, In c (projections geo point) -> tolerance < snd c).
  { intros [f d] Hin. apply in_projections in Hin.
    destruct Hin as (Hf & r & Hr & ->). simpl. eauto. }
  pose proof (proj2 (primary_needs_fallback geo point tolerance) Hfar') as Hneed.
  rewrite find_intersecting_face_run. cbv zeta. rewrite Hneed. cbn [fst snd].
  split; [reflexivity|]. split; [|split].
  - intros face uv. rewrite in_sample_calls. split.
    + intros (f & uv0 & Hf & Hp & Huv & [E|E]); inversion E; subst; auto.
    + intros (Hf & Hp & Huv). exists face, uv. auto.
  - intros face uv. rewrite in_sample_calls. split.
    + intros (f & uv0 & Hf & Hp & Huv & [E|E]); inversion E; subst; auto.
    + intros (Hf & Hp & Huv). exists face, uv. auto.
  - intros face uv Hf Hp Huv Hbelow.
    destruct (fallback_selects geo point tolerance face uv Hfar' Hf Hp Huv Hbelow)
      as ([best d] & Hin & Hd & Hleast & E).
    apply in_samples in Hin. destruct Hin as (Hb & Hbp & best_uv & Hbuv & ->).
    cbn [fst snd] in *. exists best, best_uv. rewrite E. repeat split; auto.
    intros face' uv' Hf' Hp' Huv'.
    apply (Hleast (face', sample_distance point face' uv')).
    apply in_samples. repeat split; auto. now exists uv'.
Qed.

Lemma fallback_samples_planar_faces_witness :
  exists best best_uv,
    In best (solid_faces clipped_scene) /\ IsPlanarFace best = true
    /\ In best_uv sample_uvs
    /\ sample_distance low_point best best_uv < default_tolerance
    /\ (forall face' uv',
           In face' (solid_faces clipped_scene) -> IsPlanarFace face' = true ->
           In uv' sample_uvs ->
           sample_distance low_point best best_uv
           <= sample_distance low_point face' uv')
    /\ fst (find_intersecting_face clipped_scene low_point default_tolerance [])
       = inr (Some best).
Proof.
  refine (proj2 (proj2 (proj2
            (proj2 (proj2 (proj2
               (fallback_samples_planar_faces
                  clipped_scene low_point default_tolerance []))) _)))
            clipped_floor (mkUV (2 # 10) (2 # 10)) _ _ _ _).
  - intros face r [<-|[<-|[]]] E; discriminate E.
  - right. left. reflexivity.
  - reflexivity.
  - left. reflexivity.
  - reflexivity.
Defined.

(** C3, as stated, fails: the curved face of [curved_scene] is not planar
    and the host projects nothing onto it; each of its sixteen samples is at
    distance 0 from the probe, below the tolerance 0.2; the claim has such a
    face accepted, the script answers [None]. *)
Lemma fallback_ignores_curved_face :
  IsPlanarFace (curved_face 2) = false
  /\ Project (curved_face 2) near_point = None
  /\ forallb (fun uv => Qlt_bool (sample_distance near_point (curved_face 2) uv)
                                 default_tolerance) sample_uvs = true
  /\ fst (find_intersecting_face curved_scene near_point default_tolerance [])
     = inr None
  /\ ~ (forall geo point tolerance face uv,
           In face (solid_faces geo) -> In uv sample_uvs ->
           (forall f r, In f (solid_faces geo) -> Project f point = Some r ->
                        tolerance < Distance r) ->
           sample_distance point face uv < tolerance ->
           exists best,
             fst (find_intersecting_face geo point tolerance [])
             = inr (Some best)).
Proof.
  split; [reflexivity|]. split; [reflexivity|].
  split; [vm_compute; reflexivity|]. split; [vm_compute; reflexivity|].
  intros H.
  destruct (H curved_scene near_point default_tolerance (curved_face 2)
              (mkUV (2 # 10) (2 # 10))) as [best E].
  - left. reflexivity.
  - left. reflexivity.
  - intros f r [<-|[]] Hr. discriminate Hr.
  - reflexivity.
  - vm_compute in E. discriminate E.
Qed.

(** ** The reference direction of a placed sleeve *)











(** * Further properties of the script *)

From Stdlib Require Import Permutation.

(** ** Bounding boxes as sets of points *)

Lemma intervals_meet (l1 h1 l2 h2 : Q) :
  l1 <= h1 -> l2 <= h2 -> l1 <= h2 -> l2 <= h1 ->
  exists x, (l1 <= x /\ x <= h1) /\ (l2 <= x /\ x <= h2).
Proof.
  intros H1 H2 H12 H21.
  destruct (Qlt_le_dec l1 l2) as [Hlt|Hle].
  - exists l2. repeat split; lra.
  - exists l1. repeat split; lra.
Qed.

Lemma do_bounding_boxes_intersect_iff (a b : BoundingBoxXYZ) :
  do_bounding_boxes_intersect a b = true
  <-> (XYZ.X (Min a) <= XYZ.X (Max b) /\ XYZ.X (Min b) <= XYZ.X (Max a))
      /\ (XYZ.Y (Min a) <= XYZ.Y (Max b) /\ XYZ.Y (Min b) <= XYZ.Y (Max a))
      /\ (XYZ.Z (Min a) <= XYZ.Z (Max b) /\ XYZ.Z (Min b) <= XYZ.Z (Max a)).
Proof.
  unfold do_bounding_boxes_intersect, Qge_bool.
  rewrite !andb_true_iff, !Qle_bool_iff. tauto.
Qed.

(** X1: for two well-formed boxes, [do_bounding_boxes_intersect] answers
    [True] exactly when some point lies in both boxes; boxes that only
    touch, on a face, an edge or a corner, count as intersecting. *)
Theorem do_bounding_boxes_intersect_common_point (a b : BoundingBoxXYZ) :
  well_formed_box a -> well_formed_box b ->
  (do_bounding_boxes_intersect a b = true
   <-> exists p, box_contains a p /\ box_contains b p).
Proof.
  intros (Hax & Hay & Haz) (Hbx & Hby & Hbz).
  rewrite do_bounding_boxes_intersect_iff. split.
  - intros ((Hx1 & Hx2) & (Hy1 & Hy2) & (Hz1 & Hz2)).
    destruct (intervals_meet _ _ _ _ Hax Hbx Hx1 Hx2) as (x & Hxa & Hxb).
    destruct (intervals_meet _ _ _ _ Hay Hby Hy1 Hy2) as (y & Hya & Hyb).
    destruct (intervals_meet _ _ _ _ Haz Hbz Hz1 Hz2) as (z & Hza & Hzb).
    exists (XYZ.mk x y z). unfold box_contains; simpl. tauto.
  - intros (p & (Hxa & Hya & Hza) & (Hxb & Hyb & Hzb)).
    repeat split; lra.
Qed.

Lemma do_bounding_boxes_intersect_common_point_witness :
  do_bounding_boxes_intersect unit_box shifted_box = true
  <-> exists p, box_contains unit_box p /\ box_contains shifted_box p.
Proof.
  apply (do_bounding_boxes_intersect_common_point unit_box shifted_box).
  - unfold well_formed_box; simpl. repeat split; discriminate.
  - unfold well_formed_box; simpl. repeat split; discriminate.
Defined.

(** X2: a box that intersects [b] still intersects it after being
    enlarged, and a well-formed box lying inside [b] intersects [b]. *)
Theorem do_bounding_boxes_intersect_monotone (a a' b : BoundingBoxXYZ) :
  (box_inside a a' -> do_bounding_boxes_intersect a b = true ->
   do_bounding_boxes_intersect a' b = true)
  /\ (well_formed_box a -> box_inside a b ->
      do_bounding_boxes_intersect a b = true).
Proof.
  split.
  - intros ((Hx1 & Hx2) & (Hy1 & Hy2) & (Hz1 & Hz2)).
    rewrite !do_bounding_boxes_intersect_iff.
    intros ((Ix1 & Ix2) & (Iy1 & Iy2) & (Iz1 & Iz2)). repeat split; lra.
  - intros (Wx & Wy & Wz) ((Hx1 & Hx2) & (Hy1 & Hy2) & (Hz1 & Hz2)).
    apply do_bounding_boxes_intersect_iff. repeat split; lra.
Qed.

Lemma do_bounding_boxes_intersect_monotone_witness :
  do_bounding_boxes_intersect shifted_box big_box = true.
Proof.
  apply (proj2 (do_bounding_boxes_intersect_monotone
                  shifted_box shifted_box big_box)).
  - unfold well_formed_box; simpl. repeat split; discriminate.
  - unfold box_inside; simpl. repeat split; discriminate.
Defined.

(** ** The far end of the equipment *)

(** X3: [get_opposite_face_of_equipment] answers [None] for an element
    without a bounding box; otherwise it answers a corner of the box that
    is at least as high as both corners: [Max] when it is strictly higher
    than [Min], and [Min] for a flat or inverted box. *)
Theorem far_end_is_the_higher_corner (equip_element : Element.t) :
  (Element.get_BoundingBox equip_element = None ->
   get_opposite_face_of_equipment equip_element = None)
  /\ (forall bbox,
         Element.get_BoundingBox equip_element = Some bbox ->
         exists p,
           get_opposite_face_of_equipment equip_element = Some p
           /\ (p = Max bbox \/ p = Min bbox)
           /\ XYZ.Z (Min bbox) <= XYZ.Z p /\ XYZ.Z (Max bbox) <= XYZ.Z p
           /\ (XYZ.Z (Min bbox) < XYZ.Z (Max bbox) -> p = Max bbox)
           /\ (XYZ.Z (Max bbox) <= XYZ.Z (Min bbox) -> p = Min bbox)).
Proof.
  unfold get_opposite_face_of_equipment. split.
  - now intros ->.
  - intros bbox ->. unfold Qgt_bool.
    destruct (Qlt_bool (XYZ.Z (Min bbox)) (XYZ.Z (Max bbox))) eqn:E.
    + apply Qlt_bool_iff in E. exists (Max bbox).
      repeat split; auto; lra.
    + apply Qlt_bool_false_iff in E. exists (Min bbox).
      repeat split; auto; lra.
Qed.

Lemma far_end_is_the_higher_corner_witness :
  get_opposite_face_of_equipment ghost = None
  /\ exists p,
       get_opposite_face_of_equipment riser = Some p
       /\ (p = XYZ.mk (1 # 2) (1 # 2) 3 \/ p = XYZ.mk 0 0 0)
       /\ 0 <= XYZ.Z p /\ 3 <= XYZ.Z p
       /\ (0 < 3 -> p = XYZ.mk (1 # 2) (1 # 2) 3)
       /\ (3 <= 0 -> p = XYZ.mk 0 0 0).
Proof.
  split.
  - apply (proj1 (far_end_is_the_higher_corner ghost)). reflexivity.
  - apply (proj2 (far_end_is_the_higher_corner riser)
             (mkBoundingBox (XYZ.mk 0 0 0) (XYZ.mk (1 # 2) (1 # 2) 3))).
    reflexivity.
Defined.

(** ** How the tolerance grows with the equipment *)

Lemma scaled_tolerance_cases (base : Q) (bbox : BoundingBoxXYZ) :
  (diameter bbox <= threshold /\ scaled_tolerance base bbox = base)
  \/ (threshold < diameter bbox
      /\ scaled_tolerance base bbox = base * (diameter bbox / threshold)).
Proof.
  unfold scaled_tolerance, Qgt_bool.
  destruct (Qlt_bool threshold (diameter bbox)) eqn:E.
  - right. apply Qlt_bool_iff in E. auto.
  - left. apply Qlt_bool_false_iff in E. auto.
Qed.

Lemma over_threshold (d : Q) : d / threshold == d * (10000 # 3937).
Proof. unfold Qdiv. reflexivity. Qed.

(** X4: for a tolerance that is not negative, scaling never tightens it,
    a wider box never gets a tighter tolerance than a narrower one, and
    above the threshold the tolerance is proportional to the diameter:
    twice the diameter gives twice the tolerance. *)
Theorem scaled_tolerance_grows (base : Q) (b1 b2 : BoundingBoxXYZ) :
  0 <= base ->
  base <= scaled_tolerance base b1
  /\ (diameter b1 <= diameter b2 ->
      scaled_tolerance base b1 <= scaled_tolerance base b2)
  /\ (threshold < diameter b1 -> diameter b2 == 2 * diameter b1 ->
      scaled_tolerance base b2 == 2 * scaled_tolerance base b1).
Proof.
  intros Hbase.
  assert (Ht : threshold == 3937 # 10000) by reflexivity.
  destruct (scaled_tolerance_cases base b1) as [[H1 ->]|[H1 ->]];
    destruct (scaled_tolerance_cases base b2) as [[H2 ->]|[H2 ->]];
    rewrite ?over_threshold; rewrite Ht in *.
  - repeat split; intros; try lra.
  - repeat split; intros; try lra; try nra.
  - repeat split; intros; try lra; try nra.
  - repeat split; intros; try lra; try nra.
Qed.

Lemma scaled_tolerance_grows_witness :
  default_tolerance <= scaled_tolerance default_tolerance small_box
  /\ (diameter small_box <= diameter unit_box ->
      scaled_tolerance default_tolerance small_box
      <= scaled_tolerance default_tolerance unit_box)
  /\ (threshold < diameter small_box ->
      diameter unit_box == 2 * diameter small_box ->
      scaled_tolerance default_tolerance unit_box
      == 2 * scaled_tolerance default_tolerance small_box).
Proof.
  apply (scaled_tolerance_grows default_tolerance small_box unit_box).
  discriminate.
Defined.

(** ** Where the kept candidate stands *)

(** A scan that starts with no face either refuses every candidate or
    keeps one that beats every acceptable candidate before it and is at
    most every acceptable candidate after it. *)
Lemma scan_split (ok : Q -> bool) (cands : list (Face * Q)) :
  (scan ok cands start = start
   /\ forall c, In c cands -> ok (snd c) = false)
  \/ exists before face d after,
       cands = before ++ (face, d) :: after
       /\ ok d = true
       /\ (forall c, In c before -> ok (snd c) = true -> d < snd c)
       /\ (forall c, In c after -> ok (snd c) = true -> d <= snd c)
       /\ scan ok cands start = mkSearch (Some face) (Finite d).
Proof.
  induction cands as [|c l IH] using rev_ind.
  - left. split; [reflexivity|]. intros c [].
  - rewrite scan_app, scan_cons. cbn [scan fold_left].
    destruct IH as [[E Hnone]|(before & face & d & after & -> & Hok & Hb & Ha & E)];
      rewrite E.
    + destruct (keep_cases ok start c) as [[Hno Ek]|(_ & Hokc & Ek)]; rewrite Ek.
      * left. split; [reflexivity|]. simpl in Hno.
        intros c' Hin. apply in_app_or in Hin.
        destruct Hin as [Hin|[<-|[]]]; auto.
      * right. exists l, (fst c), (snd c), []. destruct c as [f e].
        repeat split; auto.
        -- intros c' Hin Hok'. rewrite (Hnone c' Hin) in Hok'. discriminate.
        -- intros c' [].
    + destruct (keep_cases ok (mkSearch (Some face) (Finite d)) c)
        as [[Hno Ek]|(Hlt & Hokc & Ek)]; rewrite Ek.
      * right. exists before, face, d, (after ++ [c]).
        rewrite <- app_assoc. repeat split; auto.
        intros c' Hin Hok'. apply in_app_or in Hin.
        destruct Hin as [Hin|[<-|[]]]; auto.
        simpl in Hno. rewrite Hok', andb_true_r in Hno.
        now apply Qlt_bool_false_iff.
      * right. simpl in Hlt. apply Qlt_bool_iff in Hlt.
        exists (before ++ (face, d) :: after), (fst c), (snd c), [].
        destruct c as [f e]. simpl in *. repeat split; auto.
        -- intros c' Hin Hok'. apply in_app_or in Hin.
           destruct Hin as [Hin|[<-|Hin]].
           ++ specialize (Hb c' Hin Hok'). lra.
           ++ exact Hlt.
           ++ specialize (Ha c' Hin Hok'). lra.
        -- intros c' [].
Qed.

(** When the test is a tolerance, the candidate kept is the first to reach
    the least distance of all. *)
Lemma scan_within_first_closest (tolerance : Q) (cands : list (Face * Q))
  (face : Face) (d : Q) :
  scan (within tolerance) cands start = mkSearch (Some face) (Finite d) ->
  d <= tolerance /\ first_closest cands face d.
Proof.
  intros E.
  destruct (scan_split (within tolerance) cands)
    as [[E' _]|(before & f & e & after & Hc & Hok & Hb & Ha & E')];
    rewrite E' in E; [discriminate|].
  inversion E; subst f e. clear E.
  apply Qle_bool_iff in Hok. split; [exact Hok|].
  exists before, after. split; [exact Hc|]. split.
  - intros c Hin. destruct (within tolerance (snd c)) eqn:Hokc.
    + now apply Hb.
    + apply Qle_bool_false_iff in Hokc. lra.
  - intros c Hin. destruct (within tolerance (snd c)) eqn:Hokc.
    + now apply Ha.
    + apply Qle_bool_false_iff in Hokc. lra.
Qed.

(** ** The two searches side by side *)

(** What the far-end search answers is the first face to reach the least
    projection distance, and that distance is within its tolerance. *)
Lemma far_end_answer_first_closest geo point bbox base log face :
  fst (find_intersecting_face_based_on_far_end geo point bbox base log)
  = inr (Some face) ->
  exists d, d <= scaled_tolerance base bbox
            /\ first_closest (projections geo point) face d.
Proof.
  rewrite find_intersecting_face_based_on_far_end_run; simpl. intros E.
  destruct (scan_outcome (within (scaled_tolerance base bbox))
              (projections geo point) start)
    as [E'|(c & _ & _ & _ & E')]; rewrite E' in E; [discriminate|].
  inversion E; subst face. exists (snd c).
  now apply scan_within_first_closest.
Qed.

Lemma primary_hit geo point tolerance log face d :
  first_closest (projections geo point) face d -> d <= tolerance ->
  find_intersecting_face geo point tolerance log
  = (inr (Some face), log ++ project_calls point (solid_faces geo)).
Proof.
  intros Hfirst Hle.
  rewrite find_intersecting_face_run. cbv zeta.
  rewrite (scan_first_closest any_distance _ start face d Hfirst); auto.
  unfold needs_fallback; simpl.
  apply Qlt_bool_false_iff in Hle. unfold Qgt_bool. now rewrite Hle.
Qed.

(** X5: a face answered by the far-end search under one tolerance is
    answered under every looser one, whatever box and base tolerance
    produce it; so two runs on the same geometry and point that both
    answer a face answer the same face. *)
Theorem far_end_answer_does_not_depend_on_tolerance (geo : GeometryElement)
  (point : XYZ.t) (bbox bbox' : BoundingBoxXYZ) (base base' : Q)
  (log log' : Log) :
  (forall face,
      fst (find_intersecting_face_based_on_far_end geo point bbox base log)
      = inr (Some face) ->
      scaled_tolerance base bbox <= scaled_tolerance base' bbox' ->
      fst (find_intersecting_face_based_on_far_end geo point bbox' base' log')
      = inr (Some face))
  /\ (forall face face',
         fst (find_intersecting_face_based_on_far_end geo point bbox base log)
         = inr (Some face) ->
         fst (find_intersecting_face_based_on_far_end geo point bbox' base' log')
         = inr (Some face') ->
         face = face').
Proof.
  assert (Survives : forall b1 t1 l1 b2 t2 l2 face,
             fst (find_intersecting_face_based_on_far_end geo point b1 t1 l1)
             = inr (Some face) ->
             scaled_tolerance t1 b1 <= scaled_tolerance t2 b2 ->
             fst (find_intersecting_face_based_on_far_end geo point b2 t2 l2)
             = inr (Some face)).
  { intros b1 t1 l1 b2 t2 l2 face E Hle.
    destruct (far_end_answer_first_closest _ _ _ _ _ _ E) as (d & Hd & Hfirst).
    apply far_end_first_closest with (d := d); auto. lra. }
  split.
  - intros face. apply Survives.
  - intros face face' E E'.
    destruct (Qlt_le_dec (scaled_tolerance base' bbox')
                         (scaled_tolerance base bbox)) as [Hlt|Hle].
    + assert (Hle : scaled_tolerance base' bbox' <= scaled_tolerance base bbox)
        by lra.
      pose proof (Survives _ _ _ bbox base log _ E' Hle) as E2.
      rewrite E in E2. now inversion E2.
    + pose proof (Survives _ _ _ bbox' base' log' _ E Hle) as E2.
      rewrite E' in E2. now inversion E2.
Qed.

Lemma far_end_answer_does_not_depend_on_tolerance_witness :
  fst (find_intersecting_face_based_on_far_end
         two_floors near_point unit_box default_tolerance [])
  = inr (Some near_floor).
Proof.
  apply (proj1 (far_end_answer_does_not_depend_on_tolerance
                  two_floors near_point small_box unit_box
                  default_tolerance default_tolerance [] [])).
  - reflexivity.
  - discriminate.
Defined.

(** X6: whenever the far-end search answers a face,
    [find_intersecting_face] run with the tolerance the far-end search
    computed answers the same face, and makes [Project] calls only. *)
Theorem searches_agree_on_a_hit (geo : GeometryElement) (point : XYZ.t)
  (bbox : BoundingBoxXYZ) (base : Q) (log log' : Log) (face : Face) :
  fst (find_intersecting_face_based_on_far_end geo point bbox base log)
  = inr (Some face) ->
  find_intersecting_face geo point (scaled_tolerance base bbox) log'
  = (inr (Some face), log' ++ project_calls point (solid_faces geo)).
Proof.
  intros E.
  destruct (far_end_answer_first_closest _ _ _ _ _ _ E) as (d & Hd & Hfirst).
  now apply primary_hit with (d := d).
Qed.

Lemma searches_agree_on_a_hit_witness :
  find_intersecting_face two_floors near_point
    (scaled_tolerance default_tolerance small_box) []
  = (inr (Some near_floor),
     [] ++ project_calls near_point (solid_faces two_floors)).
Proof.
  apply (searches_agree_on_a_hit two_floors near_point small_box
           default_tolerance [] [] near_floor).
  reflexivity.
Defined.

(** ** What [find_intersecting_face] can answer *)

Lemma no_projection_iff geo point :
  (forall face, In face (solid_faces geo) -> Project face point = None)
  <-> projections geo point = [].
Proof.
  split.
  - intros Hnone. destruct (projections geo point) as [|[f d] l] eqn:E; auto.
    assert (Hin : In (f, d) (projections geo point)) by (rewrite E; now left).
    apply in_projections in Hin. destruct Hin as (Hf & r & Hr & _).
    rewrite (Hnone f Hf) in Hr. discriminate.
  - intros E face Hf. destruct (Project face point) as [r|] eqn:Hr; auto.
    assert (Hin : In (face, Distance r) (projections geo point))
      by (apply in_projections; eauto).
    rewrite E in Hin. contradiction.
Qed.

(** X7: [find_intersecting_face] answers [None] exactly when no face of a
    solid projects at all and no sample of a planar face is below the
    tolerance; a projection beyond the tolerance is enough for a face to be
    answered. *)
Theorem find_intersecting_face_none_iff (geo : GeometryElement)
  (point : XYZ.t) (tolerance : Q) (log : Log) :
  fst (find_intersecting_face geo point tolerance log) = inr None
  <-> (forall face, In face (solid_faces geo) -> Project face point = None)
      /\ (forall face uv,
             In face (solid_faces geo) -> IsPlanarFace face = true ->
             In uv sample_uvs -> tolerance <= sample_distance point face uv).
Proof.
  rewrite find_intersecting_face_run. cbv zeta.
  rewrite no_projection_iff. split.
  - intros E.
    assert (Hstart : scan any_distance (projections geo point) start = start).
    { destruct (scan_outcome any_distance (projections geo point) start)
        as [E'|(c & _ & _ & _ & E')]; auto.
      rewrite E' in E. exfalso.
      destruct (needs_fallback _ tolerance); simpl in E; [|discriminate].
      destruct (scan_outcome (below tolerance) (samples geo point)
                  (mkSearch (Some (fst c)) (Finite (snd c))))
        as [E2|(c2 & _ & _ & _ & E2)]; rewrite E2 in E; discriminate. }
    rewrite Hstart in E. simpl in E. split.
    + destruct (projections geo point) as [|c l] eqn:Hp; auto.
      exfalso.
      destruct (scan_start_some any_distance (c :: l) c (or_introl eq_refl)
                  eq_refl) as (c' & _ & _ & _ & E').
      rewrite Hstart in E'. discriminate.
    + intros face uv Hf Hplanar Huv.
      destruct (Qlt_le_dec (sample_distance point face uv) tolerance)
        as [Hlt|Hle]; auto.
      exfalso.
      assert (Hin : In (face, sample_distance point face uv) (samples geo point))
        by (apply in_samples; eauto).
      destruct (scan_start_some (below tolerance) _ _ Hin) as (c' & _ & _ & _ & E').
      { now apply Qlt_bool_iff. }
      rewrite E' in E. discriminate.
  - intros [Hnone Hsamples]. rewrite Hnone. simpl.
    rewrite scan_start_none; auto.
    intros [f d] Hin. apply in_samples in Hin.
    destruct Hin as (Hf & Hplanar & uv & Huv & ->). simpl.
    apply Qlt_bool_false_iff. auto.
Qed.

Lemma find_intersecting_face_none_iff_witness :
  fst (find_intersecting_face curved_scene near_point default_tolerance [])
  = inr None.
Proof.
  apply (proj2 (find_intersecting_face_none_iff
                  curved_scene near_point default_tolerance [])).
  split.
  - intros face [<-|[]]. reflexivity.
  - intros face uv [<-|[]] Hplanar. discriminate Hplanar.
Defined.

(** X8: a face answered by [find_intersecting_face] is a face of a solid
    of the geometry; either it projects and no face projects closer, or it
    is a planar face with a sample below the tolerance and every projection
    distance exceeds the tolerance. *)
Theorem find_intersecting_face_answer_origin (geo : GeometryElement)
  (point : XYZ.t) (tolerance : Q) (log : Log) (face : Face) :
  fst (find_intersecting_face geo point tolerance log) = inr (Some face) ->
  In face (solid_faces geo)
  /\ ((exists r, Project face point = Some r
                 /\ forall c, In c (projections geo point) -> Distance r <= snd c)
      \/ (IsPlanarFace face = true
          /\ (exists uv, In uv sample_uvs
                         /\ sample_distance point face uv < tolerance)
          /\ forall c, In c (projections geo point) -> tolerance < snd c)).
Proof.
  rewrite find_intersecting_face_run. cbv zeta.
  set (st := scan any_distance (projections geo point) start).
  assert (Primary : closest_face st = Some face ->
            In face (solid_faces geo)
            /\ exists r, Project face point = Some r
                         /\ forall c, In c (projections geo point) ->
                                      Distance r <= snd c).
  { intros E. unfold st in E.
    destruct (scan_outcome any_distance (projections geo point) start)
      as [E'|([f d] & Hin & _ & _ & E')]; rewrite E' in E; [discriminate|].
    simpl in E. inversion E; subst f.
    apply in_projections in Hin. destruct Hin as (Hf & r & Hr & ->).
    split; auto. exists r. split; auto. intros c Hc.
    pose proof (scan_at_most any_distance _ start c Hc eq_refl) as Hmin.
    now rewrite E' in Hmin. }
  destruct (needs_fallback st tolerance) eqn:Hneed; simpl; intros E.
  - destruct (scan_outcome (below tolerance) (samples geo point) st)
      as [E'|([f d] & Hin & Hok & _ & E')]; rewrite E' in E.
    + inversion E as [E1]. destruct (Primary E1) as (Hf & Hr). auto.
    + simpl in E. inversion E; subst f.
      apply in_samples in Hin. destruct Hin as (Hf & Hplanar & uv & Huv & ->).
      split; auto. right. split; auto. split.
      * exists uv. split; auto. now apply Qlt_bool_iff.
      * now apply primary_needs_fallback.
  - inversion E as [E1]. destruct (Primary E1) as (Hf & Hr). auto.
Qed.

Lemma find_intersecting_face_answer_origin_witness :
  In clipped_floor (solid_faces clipped_scene)
  /\ ((exists r, Project clipped_floor low_point = Some r
                 /\ forall c, In c (projections clipped_scene low_point) ->
                              Distance r <= snd c)
      \/ (IsPlanarFace clipped_floor = true
          /\ (exists uv, In uv sample_uvs
                         /\ sample_distance low_point clipped_floor uv
                            < default_tolerance)
          /\ forall c, In c (projections clipped_scene low_point) ->
                       default_tolerance < snd c)).
Proof.
  apply (find_intersecting_face_answer_origin
           clipped_scene low_point default_tolerance [] clipped_floor).
  vm_compute. reflexivity.
Defined.

(** ** The cost of a search in host calls *)

Lemma length_sample_calls (faces : list Face) :
  length (flat_map sample_calls faces)
  = (32 * length (filter IsPlanarFace faces))%nat.
Proof.
  induction faces as [|f rest IH]; [reflexivity|].
  cbn [flat_map filter]. rewrite length_app, IH.
  unfold sample_calls. destruct (IsPlanarFace f); cbn [length]; [|reflexivity].
  change (length (flat_map (fun uv => [CallEvaluate f uv; CallComputeNormal f uv])
                           sample_uvs)) with 32%nat.
  lia.
Qed.

(** X9: the far-end search makes exactly one host call per face of a
    solid; [find_intersecting_face] makes at least that many and at most 33
    per face, and exactly one per face plus 32 per planar face when no
    projection is within the tolerance. *)
Theorem host_calls_are_bounded (geo : GeometryElement) (point : XYZ.t)
  (bbox : BoundingBoxXYZ) (base tolerance : Q) (log : Log) :
  let faces := length (solid_faces geo) in
  let planar := length (filter IsPlanarFace (solid_faces geo)) in
  let far_end :=
    snd (find_intersecting_face_based_on_far_end geo point bbox base log) in
  let plain := snd (find_intersecting_face geo point tolerance log) in
  (length far_end = length log + faces)%nat
  /\ (length log + faces <= length plain)%nat
  /\ (length plain <= length log + 33 * faces)%nat
  /\ ((forall face r, In face (solid_faces geo) ->
         Project face point = Some r -> tolerance < Distance r) ->
      (length plain = length log + faces + 32 * planar)%nat).
Proof.
  cbv zeta. rewrite find_intersecting_face_based_on_far_end_run.
  rewrite find_intersecting_face_run. cbv zeta.
  pose proof (filter_length_le IsPlanarFace (solid_faces geo)) as Hplanar.
  assert (Hcalls : length (project_calls point (solid_faces geo))
                   = length (solid_faces geo))
    by (unfold project_calls; apply length_map).
  split; [|split; [|split]].
  - cbn [snd]. rewrite length_app. lia.
  - destruct (needs_fallback _ tolerance); cbn [snd];
      rewrite !length_app, ?length_sample_calls; lia.
  - destruct (needs_fallback _ tolerance); cbn [snd];
      rewrite !length_app, ?length_sample_calls; lia.
  - intros Hfar.
    assert (Hneed : needs_fallback
                      (scan any_distance (projections geo point) start)
                      tolerance = true).
    { apply primary_needs_fallback. intros [f d] Hin.
      apply in_projections in Hin. destruct Hin as (Hf & r & Hr & ->).
      simpl. eauto. }
    rewrite Hneed. cbn [snd].
    rewrite !length_app, length_sample_calls. lia.
Qed.

Lemma host_calls_are_bounded_witness :
  (length (snd (find_intersecting_face far_scene far_point default_tolerance []))
   = length (@nil HostCall) + length (solid_faces far_scene)
     + 32 * length (filter IsPlanarFace (solid_faces far_scene)))%nat.
Proof.
  apply (host_calls_are_bounded far_scene far_point small_box
           default_tolerance default_tolerance []).
  intros face r [<-|[]] E. inversion E. reflexivity.
Defined.

(** ** The sleeve's reference direction *)

(** X11: the vector the placement normalizes is perpendicular to the face
    normal, so it lies in the plane of the face; it is also perpendicular to
    the basis vector it was made from. *)
Theorem reference_vector_lies_in_the_face (face_normal : XYZ.t) :
  XYZ.DotProduct face_normal (reference_vector face_normal) == 0
  /\ (XYZ.IsZeroLength (XYZ.CrossProduct face_normal XYZ.BasisX) = false ->
      XYZ.DotProduct XYZ.BasisX (reference_vector face_normal) == 0)
  /\ (XYZ.IsZeroLength (XYZ.CrossProduct face_normal XYZ.BasisX) = true ->
      XYZ.DotProduct XYZ.BasisY (reference_vector face_normal) == 0).
Proof.
  unfold reference_vector.
  destruct (XYZ.IsZeroLength (XYZ.CrossProduct face_normal XYZ.BasisX));
    destruct face_normal as [a b c];
    unfold XYZ.DotProduct, XYZ.CrossProduct; simpl;
    repeat split; intros; try discriminate; ring.
Qed.

Lemma reference_vector_lies_in_the_face_witness :
  XYZ.DotProduct XYZ.BasisY (reference_vector (ComputeNormal wall centre)) == 0.
Proof.
  apply (proj2 (proj2 (reference_vector_lies_in_the_face
                         (ComputeNormal wall centre)))).
  reflexivity.
Defined.

(** ** The order of enumeration *)

(** A scan from no face ends on a least acceptable candidate, if any. *)
Lemma scan_least (ok : Q -> bool) (cands : list (Face * Q)) :
  (scan ok cands start = start /\ forall c, In c cands -> ok (snd c) = false)
  \/ exists c, In c cands /\ ok (snd c) = true
               /\ (forall c', In c' cands -> ok (snd c') = true ->
                              snd c <= snd c')
               /\ scan ok cands start = mkSearch (Some (fst c)) (Finite (snd c)).
Proof.
  destruct (scan_split ok cands)
    as [H|(before & face & d & after & -> & Hok & Hb & Ha & E)]; [now left|].
  right. exists (face, d). simpl. repeat split; auto.
  - apply in_or_app. right. now left.
  - intros c' Hin Hok'. apply in_app_or in Hin.
    destruct Hin as [Hin|[<-|Hin]].
    + specialize (Hb c' Hin Hok'). lra.
    + simpl. lra.
    + now apply Ha.
Qed.

Lemma projections_permuted geo geo' point c :
  Permutation (solid_faces geo) (solid_faces geo') ->
  In c (projections geo point) -> In c (projections geo' point).
Proof.
  intros Hperm. destruct c as [f d]. rewrite !in_projections.
  intros (Hf & Hr). split; auto.
  now apply (Permutation_in f Hperm).
Qed.

(** X10: enumerating the same faces in another order changes neither
    whether the far-end search answers a face nor the projection distance
    of the face it answers; only the choice among faces at that same least
    distance depends on the order. *)
Theorem far_end_distance_ignores_order (geo geo' : GeometryElement)
  (point : XYZ.t) (bbox : BoundingBoxXYZ) (base : Q) (log log' : Log) :
  Permutation (solid_faces geo) (solid_faces geo') ->
  (fst (find_intersecting_face_based_on_far_end geo point bbox base log)
   = inr None
   <-> fst (find_intersecting_face_based_on_far_end geo' point bbox base log')
       = inr None)
  /\ (forall face face',
         fst (find_intersecting_face_based_on_far_end geo point bbox base log)
         = inr (Some face) ->
         fst (find_intersecting_face_based_on_far_end geo' point bbox base log')
         = inr (Some face') ->
         exists r r',
           Project face point = Some r /\ Project face' point = Some r'
           /\ Distance r == Distance r').
Proof.
  intros Hperm.
  pose proof (Permutation_sym Hperm) as Hperm'.
  rewrite !find_intersecting_face_based_on_far_end_run. cbn [fst].
  set (ok := within (scaled_tolerance base bbox)).
  destruct (scan_least ok (projections geo point))
    as [[E Hnone]|(c & Hin & Hok & Hleast & E)];
    destruct (scan_least ok (projections geo' point))
      as [[E' Hnone']|(c' & Hin' & Hok' & Hleast' & E')];
    rewrite E, E'; cbn [closest_face].
  - split; [tauto|]. intros face face' H. discriminate H.
  - exfalso. apply (projections_permuted geo' geo point c' Hperm') in Hin'.
    rewrite (Hnone c' Hin') in Hok'. discriminate.
  - exfalso. apply (projections_permuted geo geo' point c Hperm) in Hin.
    rewrite (Hnone' c Hin) in Hok. discriminate.
  - split; [split; intros H; discriminate H|].
    intros face face' H H'. inversion H; inversion H'; subst face face'.
    pose proof (Hleast c' (projections_permuted geo' geo point c' Hperm' Hin')
                  Hok') as H1.
    pose proof (Hleast' c (projections_permuted geo geo' point c Hperm Hin)
                  Hok) as H2.
    destruct c as [f d], c' as [f' d']. simpl in *.
    apply in_projections in Hin, Hin'.
    destruct Hin as (_ & r & Hr & ->), Hin' as (_ & r' & Hr' & ->).
    exists r, r'. repeat split; auto. lra.
Qed.

Lemma far_end_distance_ignores_order_witness :
  fst (find_intersecting_face_based_on_far_end
         two_floors near_point small_box default_tolerance []) = inr None
  <-> fst (find_intersecting_face_based_on_far_end
             two_floors_reversed near_point small_box default_tolerance [])
      = inr None.
Proof.
  apply (far_end_distance_ignores_order two_floors two_floors_reversed
           near_point small_box default_tolerance [] []).
  apply perm_swap.
Defined.

(** ** The search as the placement loop calls it *)

Lemma far_end_of_boxed (element : Element.t) (bbox : BoundingBoxXYZ) :
  Element.get_BoundingBox element = Some bbox ->
  exists p, get_opposite_face_of_equipment element = Some p
            /\ (p = Max bbox \/ p = Min bbox).
Proof.
  intros E. unfold get_opposite_face_of_equipment. rewrite E.
  destruct (Qgt_bool (XYZ.Z (Max bbox)) (XYZ.Z (Min bbox))); eauto.
Qed.

Lemma match_beam_face_run (element host : Element.t) (bbox : BoundingBoxXYZ)
  (p : XYZ.t) (geo : GeometryElement) (log : Log) :
  Element.get_BoundingBox element = Some bbox ->
  get_opposite_face_of_equipment element = Some p ->
  Element.get_Geometry host = Some geo ->
  match_beam_face element host log
  = (inr (closest_face
            (scan (within (scaled_tolerance default_tolerance bbox))
                  (projections geo p) start)),
     log ++ project_calls p (solid_faces geo)).
Proof.
  intros Eb Ep Eg. unfold match_beam_face. rewrite Eb, Ep, Eg.
  apply find_intersecting_face_based_on_far_end_run.
Qed.

(** X14: when the lines 243-248 create an instance, the equipment has a
    bounding box and the host a geometry; the instance sits on a face of a
    solid of that geometry which has a reference, whose projection distance
    from the far end of the equipment is within the scaled default
    tolerance and is the least of all projection distances; it is created
    at the given location, with the given symbol, after one [Project] call
    per face and one [ComputeNormal] call. *)
Theorem place_on_beam_postcondition (Normalize : XYZ.t -> XYZ.t)
  (element beam_host : Element.t) (first_symbol : nat)
  (location_point : XYZ.t) (log log' : Log) (instance : FamilyInstance) :
  place_on_beam Normalize element beam_host first_symbol location_point log
  = (inr (Some instance), log') ->
  exists bbox far_end_point geo face r reference,
    Element.get_BoundingBox element = Some bbox
    /\ get_opposite_face_of_equipment element = Some far_end_point
    /\ (far_end_point = Max bbox \/ far_end_point = Min bbox)
    /\ Element.get_Geometry beam_host = Some geo
    /\ In face (solid_faces geo)
    /\ Project face far_end_point = Some r
    /\ Distance r <= scaled_tolerance default_tolerance bbox
    /\ (forall c, In c (projections geo far_end_point) -> Distance r <= snd c)
    /\ Reference face = Some reference
    /\ instance
       = mkFamilyInstance (Some reference) location_point
           (Normalize (reference_vector (ComputeNormal face (mkUV (1 # 2) (1 # 2)))))
           first_symbol
    /\ log'
       = log ++ project_calls far_end_point (solid_faces geo)
             ++ [CallComputeNormal face (mkUV (1 # 2) (1 # 2));
                 CallNewFamilyInstance (Some reference) location_point
                   (Normalize (reference_vector
                                 (ComputeNormal face (mkUV (1 # 2) (1 # 2)))))
                   first_symbol].
Proof.
  intros H.
  destruct (Element.get_BoundingBox element) as [bbox|] eqn:Eb.
  2:{ unfold place_on_beam, match_beam_face, bind,
        get_opposite_face_of_equipment in H.
      rewrite Eb in H. discriminate H. }
  destruct (far_end_of_boxed element bbox Eb) as (p & Ep & Hcorner).
  destruct (Element.get_Geometry beam_host) as [geo|] eqn:Eg.
  2:{ unfold place_on_beam, match_beam_face, bind in H.
      rewrite Eb, Ep, Eg in H. discriminate H. }
  unfold place_on_beam, bind in H.
  rewrite (match_beam_face_run element beam_host bbox p geo log Eb Ep Eg) in H.
  set (tol := scaled_tolerance default_tolerance bbox) in *.
  destruct (scan_least (within tol) (projections geo p))
    as [[E _]|([face d] & Hin & Hok & Hleast & E)]; rewrite E in H;
    cbn [closest_face fst snd] in *; [discriminate H|].
  destruct (Reference face) as [reference|] eqn:Er; cbn [truthy] in H;
    [|discriminate H].
  unfold place_family_instance_at_location, face_ComputeNormal,
    doc_Create_NewFamilyInstance, host, bind, ret in H.
  rewrite Er in H. inversion H; subst instance log'. clear H.
  apply in_projections in Hin. destruct Hin as (Hf & r & Hr & ->).
  apply Qle_bool_iff in Hok.
  exists bbox, p, geo, face, r, reference.
  split; [reflexivity|]. split; [exact Ep|]. split; [exact Hcorner|].
  split; [reflexivity|]. split; [exact Hf|]. split; [exact Hr|].
  split; [exact Hok|]. split.
  - intros c Hc. destruct (within tol (snd c)) eqn:Hokc.
    + now apply Hleast.
    + apply Qle_bool_false_iff in Hokc. lra.
  - split; [exact Er|]. split; [reflexivity|].
    now rewrite <- !app_assoc.
Qed.

Lemma place_on_beam_postcondition_witness :
  exists bbox far_end_point geo face r reference,
    Element.get_BoundingBox riser = Some bbox
    /\ get_opposite_face_of_equipment riser = Some far_end_point
    /\ (far_end_point = Max bbox \/ far_end_point = Min bbox)
    /\ Element.get_Geometry beam = Some geo
    /\ In face (solid_faces geo)
    /\ Project face far_end_point = Some r
    /\ Distance r <= scaled_tolerance default_tolerance bbox
    /\ (forall c, In c (projections geo far_end_point) -> Distance r <= snd c)
    /\ Reference face = Some reference
    /\ mkFamilyInstance (Some 22%nat) near_point
         (keep_unit (reference_vector XYZ.BasisZ)) 9%nat
       = mkFamilyInstance (Some reference) location_of_sleeve
           (keep_unit (reference_vector (ComputeNormal face (mkUV (1 # 2) (1 # 2)))))
           9%nat
    /\ sleeve_log
       = [] ++ project_calls far_end_point (solid_faces geo)
            ++ [CallComputeNormal face (mkUV (1 # 2) (1 # 2));
                CallNewFamilyInstance (Some reference) location_of_sleeve
                  (keep_unit (reference_vector
                                (ComputeNormal face (mkUV (1 # 2) (1 # 2)))))
                  9%nat].
Proof.
  apply (place_on_beam_postcondition keep_unit riser beam 9
           location_of_sleeve [] sleeve_log).
  reflexivity.
Defined.

(** X15: when the lines 243-248 end without an instance, only [Project]
    calls were made, so nothing was created; and either no face of the host
    projects within the scaled default tolerance, or the closest face has no
    reference and is dropped. *)
Theorem place_on_beam_miss (Normalize : XYZ.t -> XYZ.t)
  (element beam_host : Element.t) (first_symbol : nat)
  (location_point : XYZ.t) (log log' : Log) :
  place_on_beam Normalize element beam_host first_symbol location_point log
  = (inr None, log') ->
  exists bbox far_end_point geo,
    Element.get_BoundingBox element = Some bbox
    /\ get_opposite_face_of_equipment element = Some far_end_point
    /\ Element.get_Geometry beam_host = Some geo
    /\ log' = log ++ project_calls far_end_point (solid_faces geo)
    /\ ((forall face r,
            In face (solid_faces geo) -> Project face far_end_point = Some r ->
            scaled_tolerance default_tolerance bbox < Distance r)
        \/ exists face,
             fst (find_intersecting_face_based_on_far_end
                    geo far_end_point bbox default_tolerance log)
             = inr (Some face)
             /\ Reference face = None).
Proof.
  intros H.
  destruct (Element.get_BoundingBox element) as [bbox|] eqn:Eb.
  2:{ unfold place_on_beam, match_beam_face, bind,
        get_opposite_face_of_equipment in H.
      rewrite Eb in H. discriminate H. }
  destruct (far_end_of_boxed element bbox Eb) as (p & Ep & Hcorner).
  destruct (Element.get_Geometry beam_host) as [geo|] eqn:Eg.
  2:{ unfold place_on_beam, match_beam_face, bind in H.
      rewrite Eb, Ep, Eg in H. discriminate H. }
  unfold place_on_beam, bind in H.
  rewrite (match_beam_face_run element beam_host bbox p geo log Eb Ep Eg) in H.
  exists bbox, p, geo.
  rewrite find_intersecting_face_based_on_far_end_run. cbn [fst].
  set (tol := scaled_tolerance default_tolerance bbox) in *.
  destruct (scan_least (within tol) (projections geo p))
    as [[E Hnone]|([face d] & Hin & Hok & Hleast & E)]; rewrite E in *;
    cbn [closest_face fst snd] in *.
  - unfold ret in H. inversion H. repeat split; auto. left.
    intros face r Hf Hr. apply Qle_bool_false_iff.
    apply (Hnone (face, Distance r)). apply in_projections. eauto.
  - destruct (Reference face) as [reference|] eqn:Er; cbn [truthy] in H.
    + unfold place_family_instance_at_location, face_ComputeNormal,
        doc_Create_NewFamilyInstance, host, bind, ret in H.
      discriminate H.
    + unfold ret in H. inversion H. repeat split; auto. right.
      exists face. auto.
Qed.

Lemma place_on_beam_miss_witness :
  exists bbox far_end_point geo,
    Element.get_BoundingBox riser = Some bbox
    /\ get_opposite_face_of_equipment riser = Some far_end_point
    /\ Element.get_Geometry low_beam = Some geo
    /\ [CallProject floor (XYZ.mk (1 # 2) (1 # 2) 3)]
       = [] ++ project_calls far_end_point (solid_faces geo)
    /\ ((forall face r,
            In face (solid_faces geo) -> Project face far_end_point = Some r ->
            scaled_tolerance default_tolerance bbox < Distance r)
        \/ exists face,
             fst (find_intersecting_face_based_on_far_end
                    geo far_end_point bbox default_tolerance [])
             = inr (Some face)
             /\ Reference face = None).
Proof.
  apply (place_on_beam_miss keep_unit riser low_beam 9 near_point []
           [CallProject floor (XYZ.mk (1 # 2) (1 # 2) 3)]).
  reflexivity.
Defined.

(** ** The hosts an equipment crosses *)

Lemma collect_intersecting_filter (type : String.string)
  (equip_bbox : option BoundingBoxXYZ) (collector : list Element.t)
  (acc : list Intersecting) :
  collect_intersecting type equip_bbox collector acc
  = acc ++ map (fun other => mkIntersecting (Element.Id other) type)
               (filter (crossesb equip_bbox) collector).
Proof.
  unfold collect_intersecting. revert acc.
  induction collector as [|other rest IH]; intros acc; simpl.
  - now rewrite app_nil_r.
  - rewrite IH. unfold crossesb at 2.
    destruct (Element.get_BoundingBox other) as [ob|]; [|reflexivity].
    destruct equip_bbox as [eb|]; [|reflexivity].
    destruct (do_bounding_boxes_intersect eb ob); [|reflexivity].
    simpl. now rewrite <- app_assoc.
Qed.

Lemma crossesb_iff (bbox : BoundingBoxXYZ) (other : Element.t) :
  crossesb (Some bbox) other = true <-> crosses bbox other.
Proof.
  unfold crossesb, crosses. split.
  - destruct (Element.get_BoundingBox other) as [ob|]; [|discriminate]. eauto.
  - intros (ob & -> & H). exact H.
Qed.

Lemma filter_none {A : Type} (f : A -> bool) (l : list A) :
  (forall x, In x l -> f x = false) -> filter f l = [].
Proof.
  induction l as [|x rest IH]; intros H; simpl; [reflexivity|].
  rewrite (H x (or_introl eq_refl)). apply IH. intros y Hy. apply H. now right.
Qed.

(** The two loops of lines 155-162 list the walls that cross the
    equipment, then the beams that do. *)
Lemma crossing_hosts_listed (element : Element.t)
  (wall_collector beam_collector : list Element.t) :
  let recorded :=
    intersecting_elements_of element wall_collector beam_collector in
  recorded
  = map (fun wall => mkIntersecting (Element.Id wall) "Wall"%string)
        (filter (crossesb (Element.get_BoundingBox element)) wall_collector)
    ++ map (fun beam => mkIntersecting (Element.Id beam) "Beam"%string)
           (filter (crossesb (Element.get_BoundingBox element)) beam_collector)
  /\ (Element.get_BoundingBox element = None -> recorded = [])
  /\ (forall bbox id type,
         Element.get_BoundingBox element = Some bbox ->
         (In (mkIntersecting id type) recorded
          <-> (type = "Wall"%string
               /\ exists wall, In wall wall_collector
                               /\ Element.Id wall = id /\ crosses bbox wall)
              \/ (type = "Beam"%string
                  /\ exists beam, In beam beam_collector
                                  /\ Element.Id beam = id /\ crosses bbox beam)))
  /\ (length recorded <= length wall_collector + length beam_collector)%nat.
Proof.
  cbv zeta.
  assert (E : intersecting_elements_of element wall_collector beam_collector
              = map (fun wall => mkIntersecting (Element.Id wall) "Wall"%string)
                    (filter (crossesb (Element.get_BoundingBox element))
                            wall_collector)
                ++ map (fun beam => mkIntersecting (Element.Id beam) "Beam"%string)
                       (filter (crossesb (Element.get_BoundingBox element))
                               beam_collector)).
  { unfold intersecting_elements_of. cbv zeta.
    now rewrite !collect_intersecting_filter. }
  rewrite E. split; [reflexivity|]. split; [|split].
  - intros ->.
    rewrite !filter_none; auto; intros x _; unfold crossesb;
      now destruct (Element.get_BoundingBox x).
  - intros bbox id type ->. rewrite in_app_iff, !in_map_iff. split.
    + intros [(wall & Heq & Hin)|(beam & Heq & Hin)];
        apply filter_In in Hin; destruct Hin as [Hin Hc];
        apply crossesb_iff in Hc; inversion Heq; subst; [left|right]; eauto.
    + intros [(-> & wall & Hin & <- & Hc)|(-> & beam & Hin & <- & Hc)];
        [left; exists wall|right; exists beam]; split; auto;
        apply filter_In; split; auto; now apply crossesb_iff.
  - rewrite length_app, !length_map.
    pose proof (filter_length_le (crossesb (Element.get_BoundingBox element))
                  wall_collector).
    pose proof (filter_length_le (crossesb (Element.get_BoundingBox element))
                  beam_collector).
    lia.
Qed.

(** X16: the list recorded for a selected element is empty when the
    element is not a family instance, and when reading its properties
    raises; no exception leaves the [try].  For a family instance whose
    properties read, it holds the walls whose bounding box intersects the
    element's, in the order of the wall collector and tagged 'Wall',
    followed by the beams that do, in the order of the beam collector and
    tagged 'Beam'; a host without a bounding box is never recorded, and for
    an element without a bounding box the list is empty. *)
Theorem intersecting_elements_spec
  (isinstance_FamilyInstance : Element.t -> bool)
  (read_properties : Element.t -> Py unit) (element : Element.t)
  (wall_collector beam_collector : list Element.t) (log : Log) :
  let outcome :=
    recorded_intersecting_elements isinstance_FamilyInstance read_properties
      element wall_collector beam_collector log in
  (exists recorded log', outcome = (inr recorded, log'))
  /\ (isinstance_FamilyInstance element = false -> outcome = (inr [], log))
  /\ (forall e log',
         isinstance_FamilyInstance element = true ->
         read_properties element log = (inl e, log') ->
         outcome = (inr [], log'))
  /\ (forall log',
         isinstance_FamilyInstance element = true ->
         read_properties element log = (inr tt, log') ->
         exists recorded,
           outcome = (inr recorded, log')
           /\ recorded
              = map (fun wall => mkIntersecting (Element.Id wall) "Wall"%string)
                    (filter (crossesb (Element.get_BoundingBox element))
                            wall_collector)
                ++ map (fun beam => mkIntersecting (Element.Id beam) "Beam"%string)
                       (filter (crossesb (Element.get_BoundingBox element))
                               beam_collector)
           /\ (Element.get_BoundingBox element = None -> recorded = [])
           /\ (forall bbox id type,
                  Element.get_BoundingBox element = Some bbox ->
                  (In (mkIntersecting id type) recorded
                   <-> (type = "Wall"%string
                        /\ exists wall, In wall wall_collector
                                        /\ Element.Id wall = id
                                        /\ crosses bbox wall)
                       \/ (type = "Beam"%string
                           /\ exists beam, In beam beam_collector
                                           /\ Element.Id beam = id
                                           /\ crosses bbox beam)))
           /\ (length recorded
               <= length wall_collector + length beam_collector)%nat).
Proof.
  cbv zeta. unfold recorded_intersecting_elements, try_pass, bind, ret.
  split; [|split; [|split]].
  - destruct (isinstance_FamilyInstance element); [|eauto].
    destruct (read_properties element log) as [[e|u] log1]; eauto.
  - now intros ->.
  - intros e log' -> E. now rewrite E.
  - intros log' -> E. rewrite E.
    exists (intersecting_elements_of element wall_collector beam_collector).
    split; [reflexivity|].
    exact (crossing_hosts_listed element wall_collector beam_collector).
Qed.

Lemma intersecting_elements_spec_witness :
  recorded_intersecting_elements none_is_FamilyInstance reads_return
    riser [near_wall; far_wall] [beam; hollow_beam] [] = (inr [], [])
  /\ recorded_intersecting_elements each_is_FamilyInstance reads_raise
       riser [near_wall; far_wall] [beam; hollow_beam] [] = (inr [], [])
  /\ exists recorded,
       recorded_intersecting_elements each_is_FamilyInstance reads_return
         riser [near_wall; far_wall] [beam; hollow_beam] []
       = (inr recorded, [])
       /\ In (mkIntersecting 21 "Beam"%string) recorded
       /\ In (mkIntersecting 25 "Wall"%string) recorded.
Proof.
  split; [|split].
  - apply (proj1 (proj2 (intersecting_elements_spec
                           none_is_FamilyInstance reads_return riser
                           [near_wall; far_wall] [beam; hollow_beam] []))).
    reflexivity.
  - apply (proj1 (proj2 (proj2 (intersecting_elements_spec
                                  each_is_FamilyInstance reads_raise riser
                                  [near_wall; far_wall] [beam; hollow_beam] [])))
             AttributeError []).
    + reflexivity.
    + reflexivity.
  - destruct (proj2 (proj2 (proj2 (intersecting_elements_spec
                                     each_is_FamilyInstance reads_return riser
                                     [near_wall; far_wall] [beam; hollow_beam]
                                     []))) [] eq_refl eq_refl)
      as (recorded & Hrun & _ & _ & Hin & _).
    exists recorded. split; [exact Hrun|]. split.
    + apply (Hin (mkBoundingBox (XYZ.mk 0 0 0) (XYZ.mk (1 # 2) (1 # 2) 3))
               21%nat "Beam"%string eq_refl).
      right. split; [reflexivity|]. exists beam.
      split; [now left|]. split; [reflexivity|].
      exists (mkBoundingBox (XYZ.mk (- (1)) (- (1)) (5 # 2)) (XYZ.mk 2 2 4)).
      split; reflexivity.
    + apply (Hin (mkBoundingBox (XYZ.mk 0 0 0) (XYZ.mk (1 # 2) (1 # 2) 3))
               25%nat "Wall"%string eq_refl).
      left. split; [reflexivity|]. exists near_wall.
      split; [now left|]. split; [reflexivity|].
      exists (mkBoundingBox (XYZ.mk (1 # 4) (- (1)) 0) (XYZ.mk (1 # 3) 5 3)).
      split; reflexivity.
Defined.

(** The riser crosses the near wall and both beams, not the far wall. *)
Lemma riser_crossings :
  intersecting_elements_of riser [near_wall; far_wall] [beam; hollow_beam]
  = [mkIntersecting 25 "Wall"%string; mkIntersecting 21 "Beam"%string;
     mkIntersecting 23 "Beam"%string].
Proof. vm_compute. reflexivity. Qed.

(** ** The tolerance of [find_intersecting_face] *)

(** X17: when no sample of a planar face is below the tolerance,
    [find_intersecting_face] answers the first face to reach the least
    projection distance, however far beyond the tolerance that distance is:
    the tolerance then plays no part in the answer. *)
Theorem find_intersecting_face_ignores_tolerance (geo : GeometryElement)
  (point : XYZ.t) (tolerance : Q) (log : Log) (face : Face) (d : Q) :
  first_closest (projections geo point) face d ->
  (forall f uv,
      In f (solid_faces geo) -> IsPlanarFace f = true -> In uv sample_uvs ->
      tolerance <= sample_distance point f uv) ->
  fst (find_intersecting_face geo point tolerance log) = inr (Some face).
Proof.
  intros Hfirst Hsamples.
  rewrite find_intersecting_face_run. cbv zeta.
  rewrite (scan_first_closest any_distance _ start face d Hfirst); auto.
  destruct (needs_fallback _ tolerance); [|reflexivity].
  cbn [fst]. rewrite scan_stable; [reflexivity|].
  intros [f e] Hin. apply in_samples in Hin.
  destruct Hin as (Hf & Hplanar & uv & Huv & ->). cbn [snd].
  apply andb_false_intro2. apply Qlt_bool_false_iff. auto.
Qed.

Lemma find_intersecting_face_ignores_tolerance_witness :
  fst (find_intersecting_face far_scene far_point default_tolerance [])
  = inr (Some floor).
Proof.
  apply (find_intersecting_face_ignores_tolerance
           far_scene far_point default_tolerance [] floor 1).
  - exists [], []. repeat split; intros c [].
  - intros f uv [<-|[]] _ Huv. simpl in Huv.
    repeat (destruct Huv as [<-|Huv]; [intros H; discriminate H|]).
    contradiction.
Defined.
